(** * GraphDb: the leveled lineage graph of
    datahub-web/packages/data-portal/app/utils/graph-db.ts

    The class [GraphDb<T>] is embedded as a record of its four fields, its
    computed properties as functions of that record and its methods as
    computations of a state and exception monad over it.

    - Numbers are mathematical integers ([Z]).
    - A plain object used as an index ([nodesById], [edgesByFrom], ...) is
      a finite map ([gmap]) over the keys the code writes; the members an
      object inherits from its prototype are not part of it.
    - A computed property is recomputed from the store at each read: the
      cache Ember keeps between two changes of its dependent keys is not
      modelled.
    - The [while] loop of [getHierarchyNodes] runs on fuel; a call that
      uses it up is still running. *)

From Stdlib Require Import ZArith Lia.
From stdpp Require Import base option list gmap strings fin_maps.

Local Open Scope Z_scope.

(** ** Data model *)

(** [INode<T>]: the optional fields [selected], [loaded] and [payload] are
    [None] when the property is absent or [undefined]. *)
Record INode (T : Type) := mkNode {
  id : Z;
  level : Z;
  selected : option bool;
  loaded : option bool;
  payload : option T
}.
Arguments mkNode {T}.
Arguments id {T}.
Arguments level {T}.
Arguments selected {T}.
Arguments loaded {T}.
Arguments payload {T}.

(** [IEdge<T>] *)
Record IEdge := mkEdge {
  from : Z;
  to : Z
}.

(** The fields of the class. *)
Record GraphDb (T : Type) := mkGraphDb {
  nodes : list (INode T);
  edges : list IEdge;
  uniqueKeys : list string;
  idGenerator : Z
}.
Arguments mkGraphDb {T}.
Arguments nodes {T}.
Arguments edges {T}.
Arguments uniqueKeys {T}.
Arguments idGenerator {T}.

(** A freshly constructed instance: the field initialisers of the class,
    with the unique keys the caller configures. *)
Definition newGraphDb {T} (keys : list string) : GraphDb T :=
  mkGraphDb [] [] keys 1.

(** [Partial<INode<T>>], the argument of [setNodeAttrs]: a field is [None]
    when the patch has no such key. *)
Record Attrs (T : Type) := mkAttrs {
  a_id : option Z;
  a_level : option Z;
  a_selected : option (option bool);
  a_loaded : option (option bool);
  a_payload : option (option T)
}.
Arguments mkAttrs {T}.
Arguments a_id {T}.
Arguments a_level {T}.
Arguments a_selected {T}.
Arguments a_loaded {T}.
Arguments a_payload {T}.

(** The object literal [{ selected: b }]. *)
Definition selectedAttr {T} (b : bool) : Attrs T :=
  mkAttrs None None (Some (Some b)) None None.

(** The object spread [{ ...node, ...attrs }]. *)
Definition spread {T} (node : INode T) (attrs : Attrs T) : INode T :=
  mkNode (default (id node) (a_id attrs))
         (default (level node) (a_level attrs))
         (default (selected node) (a_selected attrs))
         (default (loaded node) (a_loaded attrs))
         (default (payload node) (a_payload attrs)).

(** Truthiness of an optional boolean: [undefined] is falsy. *)
Definition truthy (b : option bool) : bool := default false b.

(** ** Outcomes of a call

    A call returns, throws (the only exception this code can raise is the
    [TypeError] of reading through [undefined]), or is still running when
    the fuel of the model is used up. *)
Inductive error := TypeError.

Inductive outcome (A : Type) :=
  | Ok (a : A)
  | Throw (e : error)
  | OutOfFuel.
Arguments Ok {A}.
Arguments Throw {A}.
Arguments OutOfFuel {A}.

#[global] Instance outcome_ret : MRet outcome := λ A a, Ok a.
#[global] Instance outcome_bind : MBind outcome := λ A B f m,
  match m with
  | Ok a => f a
  | Throw e => Throw e
  | OutOfFuel => OutOfFuel
  end.

(** ** lodash [keyBy] and the [groupBy] helper *)

(** [keyBy(collection, iteratee)]: the last element with a key wins. *)
Definition keyBy `{Countable K} {A} (iteratee : A → K) (collection : list A)
  : gmap K A :=
  foldl (λ result a, <[iteratee a := a]> result) ∅ collection.

(** Modelled from the spec: [groupBy] of [@datahub/utils/array/group-by] is
    imported but is not among the sources; the specification describes its
    result as the map from a key to the list of elements with that key, in
    insertion order. *)
Definition groupBy `{Countable K} {A} (key : A → K) (collection : list A)
  : gmap K (list A) :=
  foldl (λ result a, <[key a := default [] (result !! key a) ++ [a]]> result)
        ∅ collection.

Section GraphDb.
Context {T : Type}.

(** Ember's [get(payload, key)]: the value of a property of the payload
    in its string form, [None] when it is [undefined].  The payload type
    is the type parameter of the class, so the accessor is a parameter
    of the model. *)
Variable get : T → string → option string.

Abbreviation Node := (INode T).
Abbreviation Graph := (GraphDb T).

(** String conversion of a property value, as a template literal or a
    property key performs it. *)
Definition toString (v : option string) : string := default "undefined" v.

(** *** Index manager: the computed properties *)

Definition edgesByFrom (g : Graph) : gmap Z (list IEdge) :=
  groupBy from (edges g).

Definition edgesByTo (g : Graph) : gmap Z (list IEdge) :=
  groupBy to (edges g).

Definition nodesById (g : Graph) : gmap Z Node :=
  keyBy id (nodes g).

(** The entries of a parent list are [nodesById[edge.to]], which is
    [undefined] ([None]) for an edge towards an id that is not a node. *)
Definition parentsByNodeId (g : Graph) : gmap Z (list (option Node)) :=
  foldl (λ parentIdsByNodeId node,
           let parentIds :=
             (λ edge, nodesById g !! to edge)
               <$> default [] (edgesByFrom g !! id node) in
           <[id node := parentIds]> parentIdsByNodeId)
        ∅ (nodes g).

Definition childrenByNodeId (g : Graph) : gmap Z (list (option Node)) :=
  foldl (λ childIdsByNodeId node,
           let childIds :=
             (λ edge, nodesById g !! from edge)
               <$> default [] (edgesByTo g !! id node) in
           <[id node := childIds]> childIdsByNodeId)
        ∅ (nodes g).

Definition downstreamNodes (g : Graph) : list Node :=
  filter (λ node, 0 < level node) (nodes g).

Definition upstreamNodes (g : Graph) : list Node :=
  filter (λ node, level node < 0) (nodes g).

(** [get(node, `payload.${propertyName}`)] used as a property key. *)
Definition payloadKey (propertyName : string) (node : Node) : string :=
  toString (payload node ≫= λ p, get p propertyName).

Definition uniqueIndexes (g : Graph) : gmap string (gmap string Node) :=
  foldl (λ indexes propertyName,
           <[propertyName := keyBy (payloadKey propertyName) (nodes g)]>
             indexes)
        ∅ (uniqueKeys g).

Definition minLevel (g : Graph) : Z :=
  foldl (λ min node, if decide (level node < min) then level node else min)
        0 (nodes g).

(** *** Queries *)

(** [uniqueIndexes[uniqueKey]] is read with the total lookup: the key
    ranges over [uniqueKeys], for which the index always exists
    (lemma [uniqueIndexes_lookup] below). *)
Definition findNode (g : Graph) (nodePayload : T) : option Node :=
  foldl (λ (object : option Node) uniqueKey,
           match object with
           | Some _ => object
           | None =>
               let index := uniqueIndexes g !!! uniqueKey in
               let propertyValue := toString (get nodePayload uniqueKey) in
               index !! propertyValue
           end)
        None (uniqueKeys g).

Definition getIsUpstream (node : Node) : bool :=
  bool_decide (level node < 0).

(** The callback of the [reduce] in [getHierarchyNodes], on the
    accumulator [newNodes] and one entry of the frontier.  Reading
    [node.level] of an [undefined] entry, and spreading the [undefined]
    that the query gives for an id that is not a node, both throw. *)
Definition expandStep (g : Graph) (up : bool) (stopAtLevel : Z)
    (newNodes : list (option Node)) (entry : option Node)
    : outcome (list (option Node)) :=
  match entry with
  | None => Throw TypeError
  | Some node =>
      if decide (level node ≠ stopAtLevel) then
        let graphDbQuery :=
          if up then parentsByNodeId g else childrenByNodeId g in
        match graphDbQuery !! id node with
        | Some found => Ok (newNodes ++ found)
        | None => Throw TypeError
        end
      else Ok newNodes
  end.

(** One pass of the [reduce] over the frontier. *)
Definition expandFrontier (g : Graph) (up : bool) (stopAtLevel : Z)
    (currentNodes : list (option Node)) : outcome (list (option Node)) :=
  foldl (λ acc entry,
           newNodes ← acc; expandStep g up stopAtLevel newNodes entry)
        (Ok []) currentNodes.

(** The [while] loop; [fuel] bounds the number of passes. *)
Fixpoint hierarchyLoop (g : Graph) (up : bool) (stopAtLevel : Z)
    (fuel : nat) (exploredNodes currentNodes : list (option Node))
    : outcome (list (option Node)) :=
  match currentNodes with
  | [] => Ok exploredNodes
  | _ :: _ =>
      match fuel with
      | O => OutOfFuel
      | S fuel' =>
          newNodes ← expandFrontier g up stopAtLevel currentNodes;
          hierarchyLoop g up stopAtLevel fuel'
                        (exploredNodes ++ newNodes) newNodes
      end
  end.

Definition getHierarchyNodes (g : Graph) (fuel : nat) (node : Node)
    (up : bool) (stopAtLevel : Z) : outcome (list (option Node)) :=
  hierarchyLoop g up stopAtLevel fuel [Some node] [Some node].

(** *** Mutators: a state and exception monad over the instance *)

Definition M (A : Type) : Type := Graph → outcome A * Graph.

Definition ret {A} (a : A) : M A := λ g, (Ok a, g).

Definition bind {A B} (m : M A) (k : A → M B) : M B := λ g,
  match m g with
  | (Ok a, g') => k a g'
  | (Throw e, g') => (Throw e, g')
  | (OutOfFuel, g') => (OutOfFuel, g')
  end.

Definition this : M Graph := λ g, (Ok g, g).

Definition lift {A} (o : outcome A) : M A := λ g, (o, g).

(** [set(this, 'nodes', v)], [set(this, 'edges', v)] and
    [setProperties(this, { nodes, idGenerator })]. *)
Definition set_nodes (v : list Node) : M unit := λ g,
  (Ok tt, mkGraphDb v (edges g) (uniqueKeys g) (idGenerator g)).

Definition set_edges (v : list IEdge) : M unit := λ g,
  (Ok tt, mkGraphDb (nodes g) v (uniqueKeys g) (idGenerator g)).

Definition setProperties (v : list Node) (next : Z) : M unit := λ g,
  (Ok tt, mkGraphDb v (edges g) (uniqueKeys g) next).

Notation "x ←M m ; k" := (bind m (λ x, k))
  (at level 20, m at level 100, k at level 200, only parsing).
Notation "m ;M k" := (bind m (λ _, k))
  (at level 100, k at level 200, right associativity, only parsing).

Fixpoint forEach {A} (l : list A) (f : A → M unit) : M unit :=
  match l with
  | [] => ret tt
  | a :: l' => f a ;M forEach l' f
  end.

Definition addEdge (parent child : Node) : M unit :=
  g ←M this;
  let edge := mkEdge (id child) (id parent) in
  let fromIndex := default [] (edgesByFrom g !! from edge) in
  let alreadyExists :=
    find (λ otherEdge, bool_decide (to otherEdge = to edge)) fromIndex in
  match alreadyExists with
  | None => set_edges (edges g ++ [edge])
  | Some _ => ret tt
  end.

Definition addNode (node : T) (parentNode : option Node) (upstream : bool)
    : M Node :=
  g ←M this;
  newNode ←M
    match findNode g node with
    | Some found => ret found
    | None =>
        let level :=
          match parentNode with
          | Some parentNode =>
              if upstream then level parentNode - 1 else level parentNode + 1
          | None => 0
          end in
        let newNode := mkNode (idGenerator g) level None None (Some node) in
        setProperties (nodes g ++ [newNode]) (idGenerator g + 1) ;M
        ret newNode
    end;
  match parentNode with
  | Some parentNode =>
      let edgeParent := if upstream then parentNode else newNode in
      let edgeChild := if upstream then newNode else parentNode in
      addEdge edgeChild edgeParent
  | None => ret tt
  end ;M
  ret newNode.

Definition setNodeAttrs (i : Z) (attrs : Attrs T) : M unit :=
  g ←M this;
  set_nodes ((λ node, if decide (id node = i) then spread node attrs
                      else node) <$> nodes g).

(** [node.id] for an array entry that may be [undefined]. *)
Definition idOf (entry : option Node) : M Z :=
  match entry with
  | Some node => ret (id node)
  | None => lift (Throw TypeError)
  end.

Definition toggle (fuel : nat) (i : Z) : M unit :=
  g ←M this;
  match nodesById g !! i with
  | None => lift (Throw TypeError)
  | Some node =>
      let selected := truthy (selected node) in
      let upstream := getIsUpstream node in
      sets ←M
        (if selected then
           if decide (level node = 0) then
             ret (Some <$> nodes g, [])
           else
             toUnselect ←M lift (getHierarchyNodes g fuel node upstream 0);
             ret (toUnselect, [])
         else
           let toUnselect :=
             if upstream then upstreamNodes g else downstreamNodes g in
           toSelect ←M
             lift (getHierarchyNodes g fuel node (negb upstream) 0);
           ret (Some <$> toUnselect, toSelect));
      forEach sets.1 (λ node,
        j ←M idOf node; setNodeAttrs j (selectedAttr false)) ;M
      forEach sets.2 (λ node,
        j ←M idOf node; setNodeAttrs j (selectedAttr true)) ;M
      setNodeAttrs (id node) (selectedAttr (negb selected))
  end.

End GraphDb.

(** ** Concrete graphs

    Payloads with a single string property [urn]; the graphs below are
    built with the methods of the class. *)

Definition urn (p : string) (key : string) : option string :=
  if decide (key = "urn") then Some p else None.

(** Sequencing of calls on one instance. *)
Definition andThen {T A B} (m : M A) (k : A → M B) : M B :=
  @bind T A B m k.

(** Root [A], [B] upstream of [A], [C] downstream of [A]. *)
Definition lineage : GraphDb string :=
  (andThen (addNode urn "A" None false) (λ a,
   andThen (addNode urn "B" (Some a) true) (λ _,
            addNode urn "C" (Some a) false))
     (newGraphDb ["urn"])).2.

(** Root [A] with two children [B1], [B2] that share the child [D]. *)
Definition diamond : GraphDb string :=
  (andThen (addNode urn "A" None false) (λ a,
   andThen (addNode urn "B1" (Some a) false) (λ b1,
   andThen (addNode urn "B2" (Some a) false) (λ b2,
   andThen (addNode urn "D" (Some b1) false) (λ _,
            addNode urn "D" (Some b2) false))))
     (newGraphDb ["urn"])).2.

(** A graph whose only node sits at level 1: the node is created below a
    parent object that does not belong to the instance. *)
Definition orphan : GraphDb string :=
  (addNode urn "C" (Some (mkNode 7 0 None None None)) false
     (newGraphDb ["urn"])).2.

(** "Minimum level over all nodes, or 0 if the graph is empty", as the
    specification words it. *)
Definition minimumLevel {T} (g : GraphDb T) : Z :=
  match nodes g with
  | [] => 0
  | node :: rest => foldr (λ n m, Z.min (level n) m) (level node) rest
  end.


(** An instance with the default (empty) list of unique keys. *)
Definition unkeyed : GraphDb string := newGraphDb [].

(** *** Sequences of calls

    The four mutating methods as operations, and the instance after a
    sequence of calls.  An exception leaves the instance as it was when
    it was thrown, and the caller goes on with that instance. *)
Inductive operation (T : Type) :=
  | AddNode (node : T) (parentNode : option (INode T)) (upstream : bool)
  | AddEdge (parent child : INode T)
  | SetNodeAttrs (i : Z) (attrs : Attrs T)
  | Toggle (fuel : nat) (i : Z).
Arguments AddNode {T}.
Arguments AddEdge {T}.
Arguments SetNodeAttrs {T}.
Arguments Toggle {T}.

Definition perform {T} (get : T → string → option string)
    (o : operation T) (g : GraphDb T) : GraphDb T :=
  match o with
  | AddNode node parentNode upstream =>
      (addNode get node parentNode upstream g).2
  | AddEdge parent child => (addEdge parent child g).2
  | SetNodeAttrs i attrs => (setNodeAttrs i attrs g).2
  | Toggle fuel i => (toggle fuel i g).2
  end.

Definition performAll {T} (get : T → string → option string)
    (os : list (operation T)) (g : GraphDb T) : GraphDb T :=
  foldl (λ g o, perform get o g) g os.

(** The calls whose patch, if any, has no [id] key. *)
Definition keepsId {T} (o : operation T) : Prop :=
  match o with
  | SetNodeAttrs _ attrs => a_id attrs = None
  | _ => True
  end.

(** *** Selection flags

    [setSelected b n] is [{ ...n, selected: b }]; [mark ids b n] is [n]
    with the flag [b] when its id is among [ids]; [selectIds ids b] is the
    node collection after [setNodeAttrs(j, { selected: b })] for every [j]
    of [ids]; [shape] forgets the selection flags of an instance. *)
Definition setSelected {T} (b : option bool) (n : INode T) : INode T :=
  mkNode (id n) (level n) b (loaded n) (payload n).

Definition mark {T} (ids : list Z) (b : bool) (n : INode T) : INode T :=
  if decide (id n ∈ ids) then setSelected (Some b) n else n.

Definition selectIds {T} (ids : list Z) (b : bool) (ns : list (INode T))
  : list (INode T) :=
  mark ids b <$> ns.

Definition withNodes {T} (g : GraphDb T) (ns : list (INode T)) : GraphDb T :=
  mkGraphDb ns (edges g) (uniqueKeys g) (idGenerator g).

Definition shape {T} (g : GraphDb T) : GraphDb T :=
  withNodes g (setSelected None <$> nodes g).

(** Every edge joins two nodes of the graph and leads to a strictly lower
    level: the discipline [addNode] builds new nodes with. *)
Definition leveled {T} (g : GraphDb T) : Prop :=
  ∀ e, e ∈ edges g →
    ∃ a b, nodesById g !! from e = Some a ∧ nodesById g !! to e = Some b
           ∧ level b < level a.

(** The two loops of [toggle] over [toUnselect] and [toSelect]. *)
Definition selectAll {T} (b : bool) (l : list (option (INode T))) : M unit :=
  forEach l (λ node, bind (idOf node) (λ j, setNodeAttrs j (selectedAttr b))).

(** The arrays [toUnselect] and [toSelect] that [toggle] computes for the
    node it found, before it changes anything. *)
Definition toggleSets {T} (g : GraphDb T) (fuel : nat) (node : INode T)
  : outcome (list (option (INode T)) * list (option (INode T))) :=
  if truthy (selected node) then
    if decide (level node = 0) then Ok (Some <$> nodes g, [])
    else
      toUnselect ← getHierarchyNodes g fuel node (getIsUpstream node) 0;
      Ok (toUnselect, [])
  else
    toSelect ← getHierarchyNodes g fuel node (negb (getIsUpstream node)) 0;
    Ok (Some <$> (if getIsUpstream node then upstreamNodes g
                  else downstreamNodes g), toSelect).

(** A frontier entry that is a node which [nodesById] gives for its own
    id, at fewer than [fuel] levels from the end of the range [lo..hi] of
    levels that the traversal moves to. *)
Definition withinReach {T} (g : GraphDb T) (up : bool) (lo hi : Z)
    (fuel : nat) (entry : option (INode T)) : Prop :=
  ∃ n, entry = Some n ∧ nodesById g !! id n = Some n
       ∧ (if up then level n - lo else hi - level n) < Z.of_nat fuel.

(** The ids of the nodes are their positions, counted from 1, and the
    generator holds the next one. *)
Definition numbered {T} (g : GraphDb T) : Prop :=
  (∀ (pos : nat) n, nodes g !! pos = Some n → id n = Z.of_nat pos + 1)
  ∧ idGenerator g = Z.of_nat (length (nodes g)) + 1.

(** A node with an edge to itself, and an edge towards an id that is not
    a node: graphs that [addEdge] accepts and that are not leveled. *)
Definition selfLoop : GraphDb string :=
  (andThen (addNode urn "A" None false) (λ a,
   andThen (addNode urn "B" (Some a) false) (λ b, addEdge b b))
     (newGraphDb ["urn"])).2.

Definition dangling : GraphDb string :=
  (andThen (addNode urn "A" None false) (λ a,
   andThen (addNode urn "B" (Some a) false) (λ b,
            addEdge (mkNode 9 0 None None None) b))
     (newGraphDb ["urn"])).2.

(** Decidable equality of edges and nodes. *)
#[global] Instance IEdge_eq_dec : EqDecision IEdge.
Proof. solve_decision. Defined.

#[global] Instance INode_eq_dec `{EqDecision T} : EqDecision (INode T).
Proof. solve_decision. Defined.

(** *** Further notions used by the properties below *)

(** The node [n] has, under the unique key [key], the value that the
    payload [p] has: the test [index[propertyValue]] of [findNode] finds
    nodes by it. *)
Definition agrees {T} (get : T → string → option string)
    (p : T) (key : string) (n : INode T) : Prop :=
  payloadKey get key n = toString (get p key).

(** No two nodes have the same value under a unique key. *)
Definition keyed {T} (get : T → string → option string) (g : GraphDb T)
  : Prop :=
  ∀ key, key ∈ uniqueKeys g → NoDup (payloadKey get key <$> nodes g).

(** The calls whose patch, if any, has no [payload] key. *)
Definition keepsPayload {T} (o : operation T) : Prop :=
  match o with
  | SetNodeAttrs _ attrs => a_payload attrs = None
  | _ => True
  end.

(** The object spread [{ ...a, ...b }] of two patches. *)
Definition spreadAttrs {T} (a b : Attrs T) : Attrs T :=
  mkAttrs (match a_id b with Some v => Some v | None => a_id a end)
          (match a_level b with Some v => Some v | None => a_level a end)
          (match a_selected b with Some v => Some v | None => a_selected a end)
          (match a_loaded b with Some v => Some v | None => a_loaded a end)
          (match a_payload b with Some v => Some v | None => a_payload a end).

(** Two payloads with the same [urn] in the lineage graph, the second one
    under a duplicate node. *)
Definition twins : GraphDb string :=
  mkGraphDb [mkNode 1 0 None None (Some "A"); mkNode 2 1 None None (Some "A")]
            [mkEdge 2 1] ["urn"] 3.

(** The lineage graph after [toggle(3)]: the chain [C], [A] is selected. *)
Definition lineageSelected : GraphDb string := (toggle 3 3 lineage).2.

(** The calls whose patch, if any, has no [level] key. *)
Definition keepsLevel {T} (o : operation T) : Prop :=
  match o with
  | SetNodeAttrs _ attrs => a_level attrs = None
  | _ => True
  end.

(** * Properties *)

(** ** Facts about [keyBy] and [groupBy] *)

Section Indexing.
Context `{Countable K} {A : Type}.
Implicit Types (f : A → K) (l : list A) (k : K).

Lemma keyBy_snoc f l a : keyBy f (l ++ [a]) = <[f a := a]> (keyBy f l).
Proof. unfold keyBy. by rewrite foldl_app. Qed.

Lemma keyBy_lookup_Some f l k a :
  keyBy f l !! k = Some a → a ∈ l ∧ f a = k.
Proof.
  induction l as [|b l IH] using rev_ind; [done|].
  rewrite keyBy_snoc, lookup_insert. case_decide as Hk.
  - intros [= ->]. split; [set_solver | done].
  - intros [? ?]%IH. split; [set_solver | done].
Qed.

Lemma keyBy_lookup_None f l k :
  keyBy f l !! k = None ↔ k ∉ f <$> l.
Proof.
  induction l as [|b l IH] using rev_ind.
  - split; [intros _; apply not_elem_of_nil | done].
  - rewrite keyBy_snoc, fmap_app, lookup_insert. case_decide as Hk.
    + split; [done|]. intros []. set_solver.
    + rewrite IH. set_solver.
Qed.

Lemma keyBy_lookup_is_Some f l k :
  is_Some (keyBy f l !! k) ↔ k ∈ f <$> l.
Proof.
  rewrite <-not_eq_None_Some, keyBy_lookup_None.
  split; [apply dec_stable | auto].
Qed.

(** With distinct keys every element is found under its own key. *)
Lemma keyBy_lookup_NoDup f l a :
  NoDup (f <$> l) → a ∈ l → keyBy f l !! f a = Some a.
Proof.
  induction l as [|b l IH] using rev_ind; [by intros _ ?%elem_of_nil|].
  rewrite fmap_app, keyBy_snoc, lookup_insert. simpl.
  intros (Hl & Hb & _)%NoDup_app Ha. case_decide as Hk.
  - apply elem_of_app in Ha as [Ha | ->%list_elem_of_singleton]; [|done].
    exfalso. apply (Hb (f b)); [|set_solver].
    rewrite Hk. by apply list_elem_of_fmap_2.
  - apply elem_of_app in Ha as [Ha | ->%list_elem_of_singleton]; [auto|done].
Qed.

(** Mapping a key-preserving function over the collection maps it over
    the index. *)
Lemma keyBy_fmap f (h : A → A) l k :
  (∀ a, f (h a) = f a) → keyBy f (h <$> l) !! k = h <$> (keyBy f l !! k).
Proof.
  intros Hh. induction l as [|b l IH] using rev_ind; [done|].
  rewrite fmap_app. simpl. rewrite !keyBy_snoc, !lookup_insert, Hh.
  by case_decide.
Qed.

Lemma groupBy_snoc f l a :
  groupBy f (l ++ [a])
  = <[f a := default [] (groupBy f l !! f a) ++ [a]]> (groupBy f l).
Proof. unfold groupBy. by rewrite foldl_app. Qed.

(** A group holds the elements with that key, in insertion order. *)
Lemma groupBy_lookup f l k :
  default [] (groupBy f l !! k) = filter (λ a, f a = k) l.
Proof.
  induction l as [|b l IH] using rev_ind; [done|].
  rewrite groupBy_snoc, filter_app, lookup_insert.
  case_decide as Hk; simpl.
  - subst k. rewrite IH. by rewrite filter_cons_True, filter_nil.
  - rewrite IH. rewrite filter_cons_False by done.
    by rewrite filter_nil, app_nil_r.
Qed.

(** An index built by inserting, for each element, a value that depends
    on its key only. *)
Lemma tabulate_lookup {V} f (v : K → V) l k :
  foldl (λ acc a, <[f a := v (f a)]> acc) (∅ : gmap K V) l !! k
  = if decide (k ∈ f <$> l) then Some (v k) else None.
Proof.
  induction l as [|b l IH] using rev_ind.
  - simpl. by rewrite lookup_empty.
  - rewrite foldl_app, fmap_app. simpl. rewrite lookup_insert, IH.
    repeat case_decide; set_solver.
Qed.
End Indexing.

(** ** The index manager *)

Section Views.
Context {T : Type}.
Implicit Types (g : GraphDb T) (node n : INode T) (i k : Z).

Lemma nodesById_Some g i node :
  nodesById g !! i = Some node → node ∈ nodes g ∧ id node = i.
Proof. apply keyBy_lookup_Some. Qed.

Lemma nodesById_None g i : nodesById g !! i = None ↔ i ∉ id <$> nodes g.
Proof. apply keyBy_lookup_None. Qed.

Lemma nodesById_NoDup g node :
  NoDup (id <$> nodes g) → node ∈ nodes g →
  nodesById g !! id node = Some node.
Proof. apply keyBy_lookup_NoDup. Qed.

Lemma edgesByFrom_lookup g k :
  default [] (edgesByFrom g !! k) = filter (λ e, from e = k) (edges g).
Proof. apply groupBy_lookup. Qed.

Lemma edgesByTo_lookup g k :
  default [] (edgesByTo g !! k) = filter (λ e, to e = k) (edges g).
Proof. apply groupBy_lookup. Qed.

Lemma parentsByNodeId_lookup g k :
  parentsByNodeId g !! k
  = if decide (k ∈ id <$> nodes g)
    then Some ((λ e, nodesById g !! to e)
                 <$> filter (λ e, from e = k) (edges g))
    else None.
Proof.
  unfold parentsByNodeId.
  rewrite (tabulate_lookup id
    (λ j, (λ e, nodesById g !! to e) <$> default [] (edgesByFrom g !! j))).
  by rewrite edgesByFrom_lookup.
Qed.

Lemma childrenByNodeId_lookup g k :
  childrenByNodeId g !! k
  = if decide (k ∈ id <$> nodes g)
    then Some ((λ e, nodesById g !! from e)
                 <$> filter (λ e, to e = k) (edges g))
    else None.
Proof.
  unfold childrenByNodeId.
  rewrite (tabulate_lookup id
    (λ j, (λ e, nodesById g !! from e) <$> default [] (edgesByTo g !! j))).
  by rewrite edgesByTo_lookup.
Qed.

Lemma minLevel_lower_bound g node : node ∈ nodes g → minLevel g ≤ level node.
Proof.
  unfold minLevel. generalize 0.
  induction (nodes g) as [|b l IH] using rev_ind; intros z.
  - by intros ?%elem_of_nil.
  - rewrite foldl_app. simpl. intros [Hn | ->%list_elem_of_singleton]%elem_of_app.
    + specialize (IH z Hn). case_decide; lia.
    + case_decide; lia.
Qed.

Lemma minLevel_nonpos g : minLevel g ≤ 0.
Proof.
  unfold minLevel.
  induction (nodes g) as [|b l IH] using rev_ind; [done|].
  rewrite foldl_app. simpl. case_decide; lia.
Qed.

Lemma minLevel_attained g :
  minLevel g = 0 ∨ ∃ node, node ∈ nodes g ∧ level node = minLevel g.
Proof.
  unfold minLevel.
  induction (nodes g) as [|b l IH] using rev_ind; [by left|].
  rewrite foldl_app. simpl. case_decide.
  - right. exists b. split; [set_solver | done].
  - destruct IH as [IH | (n & Hn & IH)]; [by left|].
    right. exists n. split; [set_solver | done].
Qed.

Lemma foldr_min_spec z (l : list (INode T)) :
  let m := foldr (λ n m, Z.min (level n) m) z l in
  m ≤ z ∧ (∀ n, n ∈ l → m ≤ level n)
  ∧ (m = z ∨ ∃ n, n ∈ l ∧ level n = m).
Proof.
  induction l as [|b l (IH1 & IH2 & IH3)]; simpl.
  - split; [lia|]. split; [by intros n ?%elem_of_nil | by left].
  - split; [lia|]. split.
    + intros n [-> | Hn]%elem_of_cons; [lia|].
      specialize (IH2 n Hn). lia.
    + destruct (Z.min_spec (level b) (foldr (λ n m, Z.min (level n) m) z l))
        as [[_ ->] | [_ ->]].
      * right. exists b. split; [by left | done].
      * destruct IH3 as [? | (n & Hn & ?)]; [by left|].
        right. exists n. split; [by right | done].
Qed.

Lemma minimumLevel_lower_bound g node :
  node ∈ nodes g → minimumLevel g ≤ level node.
Proof.
  unfold minimumLevel. destruct (nodes g) as [|a l]; [by intros ?%elem_of_nil|].
  destruct (foldr_min_spec (level a) l) as (H1 & H2 & _).
  intros [-> | Hn]%elem_of_cons; [done | by apply H2].
Qed.

Lemma minimumLevel_attained g :
  nodes g ≠ [] → ∃ node, node ∈ nodes g ∧ level node = minimumLevel g.
Proof.
  unfold minimumLevel. destruct (nodes g) as [|a l]; [done|]. intros _.
  destruct (foldr_min_spec (level a) l) as (_ & _ & [-> | (n & Hn & <-)]).
  - exists a. split; [by left | done].
  - exists n. split; [by right | done].
Qed.

Lemma minLevel_min g : minLevel g = Z.min 0 (minimumLevel g).
Proof.
  destruct (decide (nodes g = [])) as [Hnil | Hne].
  - unfold minLevel, minimumLevel. by rewrite Hnil.
  - destruct (minimumLevel_attained g Hne) as (n2 & Hn2 & H2).
    pose proof (minLevel_lower_bound g n2 Hn2).
    pose proof (minLevel_nonpos g).
    destruct (minLevel_attained g) as [? | (n1 & Hn1 & H1)]; [lia|].
    pose proof (minimumLevel_lower_bound g n1 Hn1). lia.
Qed.
End Views.

(** ** Store and index manager: the claims *)

Section Store.
Context {T : Type}.
Implicit Types (g : GraphDb T) (node n parent child : INode T) (i k : Z).

(** C2 (as amended).  [minLevel] starts its reduction at 0, so it is the
    minimum of 0 and of the levels of the nodes: it is at most 0, it is a
    lower bound of every level, and it is 0 or the level of some node.
    It is 0 on the empty graph, and it is the minimum level over the
    nodes as soon as one node has a level at most 0. *)
Theorem minLevel_min_with_zero g :
  minLevel g ≤ 0
  ∧ (∀ node, node ∈ nodes g → minLevel g ≤ level node)
  ∧ (minLevel g = 0 ∨ ∃ node, node ∈ nodes g ∧ level node = minLevel g)
  ∧ minLevel g = Z.min 0 (minimumLevel g)
  ∧ (nodes g = [] → minLevel g = 0)
  ∧ ((∃ node, node ∈ nodes g ∧ level node ≤ 0) →
     minLevel g = minimumLevel g).
Proof.
  split; [apply minLevel_nonpos|].
  split; [apply minLevel_lower_bound|].
  split; [apply minLevel_attained|].
  split; [apply minLevel_min|].
  split.
  - unfold minLevel. by intros ->.
  - intros (n & Hn & Hle). rewrite minLevel_min.
    pose proof (minimumLevel_lower_bound g n Hn). lia.
Qed.

Lemma toggle_None fuel g i :
  nodesById g !! i = None → toggle fuel i g = (Throw TypeError, g).
Proof. intros Hi. unfold toggle, bind, this, lift. by rewrite Hi. Qed.

(** C6.  [toggle] on an id that [nodesById] does not hold fails: the
    destructuring of the missing node throws before anything is written,
    so the instance, and with it every field of every node, is exactly
    as it was. *)
Theorem toggle_unknown_id fuel g i :
  nodesById g !! i = None →
  toggle fuel i g = (Throw TypeError, g)
  ∧ nodes (toggle fuel i g).2 = nodes g.
Proof. intros Hi. by rewrite toggle_None. Qed.

Lemma addEdge_run g parent child :
  addEdge parent child g
  = (Ok tt,
     mkGraphDb (nodes g)
       (if decide (mkEdge (id child) (id parent) ∈ edges g)
        then edges g else edges g ++ [mkEdge (id child) (id parent)])
       (uniqueKeys g) (idGenerator g)).
Proof.
  unfold addEdge, bind, this. simpl. rewrite edgesByFrom_lookup.
  destruct (find _ _) as [e|] eqn:Hfind.
  - apply find_some in Hfind as [Hin Hto].
    apply list_elem_of_In, list_elem_of_filter in Hin as [Hfrom Hin].
    apply bool_decide_eq_true in Hto. destruct e as [f t]; simpl in *.
    subst. rewrite decide_True by done. by destruct g.
  - rewrite decide_False; [done|]. intros Hin.
    assert (Hscan : mkEdge (id child) (id parent)
                    ∈ filter (λ e, from e = id child) (edges g)).
    { apply list_elem_of_filter. by split. }
    apply list_elem_of_In in Hscan.
    pose proof (find_none _ _ Hfind _ Hscan) as Hno. simpl in Hno.
    by rewrite bool_decide_eq_true_2 in Hno.
Qed.

(** C7.  [addEdge(parent, child)] appends [{from: child.id, to: parent.id}]
    exactly when the collection holds no edge with that [from] and that
    [to]; the decision reads only the edges whose [from] is [child.id];
    and adding an edge and then its reverse leaves both in the
    collection. *)
Theorem addEdge_dedup g parent child :
  let edge := mkEdge (id child) (id parent) in
  addEdge parent child g
  = (Ok tt,
     mkGraphDb (nodes g)
       (if decide (edge ∈ edges g) then edges g else edges g ++ [edge])
       (uniqueKeys g) (idGenerator g))
  ∧ (edge ∈ edges g
     ↔ ∃ other, other ∈ filter (λ e, from e = id child) (edges g)
                ∧ to other = id parent)
  ∧ (id parent ≠ id child →
     ∀ g', (bind (addEdge parent child) (λ _, addEdge child parent) g).2 = g' →
       mkEdge (id child) (id parent) ∈ edges g'
       ∧ mkEdge (id parent) (id child) ∈ edges g').
Proof.
  intros edge. split; [apply addEdge_run|]. split.
  - split.
    + intros Hin. exists edge. split; [|done].
      apply list_elem_of_filter. by split.
    + intros ([f t] & [Hf Hin]%list_elem_of_filter & Ht).
      simpl in *. by subst.
  - intros Hne g' <-. unfold bind. rewrite addEdge_run. simpl.
    rewrite addEdge_run. simpl.
    destruct (decide (mkEdge (id child) (id parent) ∈ edges g));
      case_decide; set_solver.
Qed.

Lemma setNodeAttrs_run i attrs g :
  setNodeAttrs i attrs g
  = (Ok tt,
     mkGraphDb ((λ node, if decide (id node = i) then spread node attrs
                         else node) <$> nodes g)
               (edges g) (uniqueKeys g) (idGenerator g)).
Proof. reflexivity. Qed.

End Store.

(** C2: on the graph whose only node has level 1, [minLevel] is 0 and not
    the minimum level 1. *)
Lemma orphan_minLevel :
  (level <$> nodes orphan) = [1] ∧ minimumLevel orphan = 1
  ∧ minLevel orphan = 0 ∧ minLevel orphan ≠ minimumLevel orphan.
Proof. by vm_compute. Qed.

Lemma lineage_minLevel :
  minLevel lineage = minimumLevel lineage ∧ minLevel lineage = -1.
Proof.
  split; [|by vm_compute].
  apply (minLevel_min_with_zero lineage).
  exists (mkNode 2 (-1) None None (Some "B")). split; [|by vm_compute].
  apply list_elem_of_In. vm_compute. tauto.
Defined.

Lemma lineage_toggle_unknown :
  nodesById lineage !! 7 = None
  ∧ toggle 0 7 lineage = (Throw TypeError, lineage).
Proof.
  assert (H : nodesById lineage !! 7 = None) by (by vm_compute).
  split; [exact H | exact (proj1 (toggle_unknown_id 0 lineage 7 H))].
Defined.

Lemma lineage_reverse_edges :
  let a := mkNode 1 0 None None (Some "A") in
  let c := mkNode 3 1 None None (Some "C") in
  id a ≠ id c
  ∧ edges (bind (addEdge a c) (λ _, addEdge c a) lineage).2
    = [mkEdge 1 2; mkEdge 3 1; mkEdge 1 3]
  ∧ mkEdge 3 1 ∈ edges (bind (addEdge a c) (λ _, addEdge c a) lineage).2
  ∧ mkEdge 1 3 ∈ edges (bind (addEdge a c) (λ _, addEdge c a) lineage).2.
Proof.
  intros a c.
  assert (Hne : id a ≠ id c) by (by vm_compute).
  split; [exact Hne|]. split; [by vm_compute|].
  exact (proj2 (proj2 (addEdge_dedup lineage a c)) Hne _ eq_refl).
Defined.


(** ** The traversal engine *)

Section Traversal.
Context {T : Type}.
Implicit Types (g : GraphDb T) (node n a c : INode T) (i k stop : Z).
Implicit Types (up : bool) (entry : option (INode T)).
Implicit Types (l frontier : list (option (INode T))).

Lemma expandStep_acc g up stop newNodes entry :
  expandStep g up stop newNodes entry
  = (found ← expandStep g up stop [] entry; Ok (newNodes ++ found)).
Proof.
  unfold expandStep. destruct entry as [node|]; [|reflexivity].
  case_decide; simpl; [|by rewrite app_nil_r].
  by destruct (_ !! id node).
Qed.

Lemma expandFrontier_foldl g up stop acc l :
  foldl (λ acc entry, newNodes ← acc; expandStep g up stop newNodes entry)
        acc l
  = (newNodes ← acc; rest ← expandFrontier g up stop l;
     Ok (newNodes ++ rest)).
Proof.
  unfold expandFrontier. revert acc.
  induction l as [|entry l IH]; intros acc.
  - destruct acc; simpl; [by rewrite app_nil_r | reflexivity | reflexivity].
  - simpl. rewrite IH, (IH (expandStep _ _ _ _ _)).
    destruct acc as [newNodes| |]; simpl; [|reflexivity|reflexivity].
    rewrite expandStep_acc.
    destruct (expandStep g up stop [] entry); simpl;
      [|reflexivity|reflexivity].
    destruct (foldl _ _ _); simpl; [|reflexivity|reflexivity].
    by rewrite app_assoc.
Qed.

Lemma expandFrontier_nil g up stop : expandFrontier g up stop [] = Ok [].
Proof. reflexivity. Qed.

Lemma expandFrontier_cons g up stop entry l :
  expandFrontier g up stop (entry :: l)
  = (found ← expandStep g up stop [] entry;
     rest ← expandFrontier g up stop l; Ok (found ++ rest)).
Proof. unfold expandFrontier at 1. simpl. by rewrite expandFrontier_foldl. Qed.




End Traversal.


(** C5.  In the diamond built by [addNode] (root [A], its children [B1]
    and [B2], and [D] added below both), [A] is reached from [D] along
    [D, B1, A] and along [D, B2, A], and the result of
    [getHierarchyNodes(D, true, 0)] lists [A] twice. *)
Theorem getHierarchyNodes_no_dedup :
  ∃ (g : GraphDb string) seed node explored,
    seed ∈ nodes g ∧ node ∈ nodes g
    ∧ (∃ b1 b2, b1 ≠ b2
         ∧ mkEdge (id seed) b1 ∈ edges g ∧ mkEdge b1 (id node) ∈ edges g
         ∧ mkEdge (id seed) b2 ∈ edges g ∧ mkEdge b2 (id node) ∈ edges g)
    ∧ getHierarchyNodes g 3 seed true 0 = Ok explored
    ∧ length (filter (λ entry, entry = Some node) explored) = 2%nat.
Proof.
  exists diamond, (mkNode 4 2 None None (Some "D")),
    (mkNode 1 0 None None (Some "A")).
  eexists. split; [apply list_elem_of_In; vm_compute; tauto|].
  split; [apply list_elem_of_In; vm_compute; tauto|].
  split.
  - exists 2, 3. split; [done|].
    repeat split; apply list_elem_of_In; vm_compute; tauto.
  - split; [by vm_compute|]. by vm_compute.
Qed.

(** ** [findNode] and [addNode] *)

Section AddNode.
Context {T : Type} (get : T → string → option string).
Implicit Types (g : GraphDb T) (node n : INode T) (p : T) (i : Z).
Implicit Types (key : string) (up : bool).

Lemma uniqueIndexes_lookup g key :
  uniqueIndexes get g !! key
  = if decide (key ∈ uniqueKeys g)
    then Some (keyBy (payloadKey get key) (nodes g)) else None.
Proof.
  unfold uniqueIndexes.
  rewrite (tabulate_lookup (λ k : string, k)
             (λ k, keyBy (payloadKey get k) (nodes g))).
  by rewrite list_fmap_id.
Qed.

Lemma findNode_found g p (object : INode T) keys :
  foldl (λ (object : option (INode T)) uniqueKey,
           match object with
           | Some _ => object
           | None =>
               let index := uniqueIndexes get g !!! uniqueKey in
               let propertyValue := toString (get p uniqueKey) in
               index !! propertyValue
           end) (Some object) keys = Some object.
Proof. by induction keys. Qed.


(** The node just appended is found under the payload it was created
    from, as soon as one unique key is configured. *)
Lemma findNode_appended g p n next :
  uniqueKeys g ≠ [] → payload n = Some p →
  findNode get (mkGraphDb (nodes g ++ [n]) (edges g) (uniqueKeys g) next) p
  = Some n.
Proof.
  intros Hkeys Hp. unfold findNode. simpl.
  destruct (uniqueKeys g) as [|key keys] eqn:Hk; [done|]. simpl.
  rewrite lookup_total_alt, uniqueIndexes_lookup. simpl.
  rewrite decide_True by (by left). simpl.
  rewrite keyBy_snoc.
  assert (Hkey : payloadKey get key n = toString (get p key)).
  { unfold payloadKey. by rewrite Hp. }
  rewrite <-Hkey, lookup_insert_eq. apply findNode_found.
Qed.


End AddNode.



(** ** The selection state machine *)

Section Selection.
Context {T : Type}.
Implicit Types (g : GraphDb T) (node n : INode T) (i j : Z) (b : bool).
Implicit Types (ns : list (INode T)) (l : list (option (INode T))).

Lemma spread_selectedAttr n b :
  spread n (selectedAttr b) = setSelected (Some b) n.
Proof. reflexivity. Qed.

Lemma selectIds_nil b ns : selectIds [] b ns = ns.
Proof.
  unfold selectIds. induction ns as [|n ns IH]; [done|].
  rewrite fmap_cons, IH. unfold mark.
  rewrite decide_False; [done|]. apply not_elem_of_nil.
Qed.

Lemma selectIds_cons j ids b ns :
  selectIds ids b
    ((λ n, if decide (id n = j) then spread n (selectedAttr b) else n) <$> ns)
  = selectIds (j :: ids) b ns.
Proof.
  unfold selectIds. rewrite <-list_fmap_compose. apply list_fmap_ext.
  intros _ n _. unfold mark. simpl.
  destruct (decide (id n = j)) as [->|Hj]; simpl.
  - rewrite (decide_True (P := j ∈ j :: ids)) by by left.
    by case_decide.
  - destruct (decide (id n ∈ ids)) as [Hin|Hin].
    + rewrite decide_True; [done | by right].
    + rewrite decide_False; [done|]. by intros [?|?]%elem_of_cons.
Qed.

Lemma withNodes_nodes g : withNodes g (nodes g) = g.
Proof. by destruct g. Qed.

Lemma selectAll_cons_Some b n l g :
  selectAll b (Some n :: l) g
  = selectAll b l (setNodeAttrs (id n) (selectedAttr b) g).2.
Proof. reflexivity. Qed.

Lemma selectAll_cons_None b l g :
  selectAll b (None :: l) g = (Throw TypeError, g).
Proof. reflexivity. Qed.

(** The loop over an array of nodes sets the flag of every node whose id
    is the id of an entry. *)
Lemma selectAll_Some b ns g :
  selectAll b (Some <$> ns) g
  = (Ok tt, withNodes g (selectIds (id <$> ns) b (nodes g))).
Proof.
  revert g. induction ns as [|n ns IH]; intros g.
  - simpl. by rewrite selectIds_nil, withNodes_nodes.
  - rewrite !fmap_cons, selectAll_cons_Some, IH, setNodeAttrs_run. simpl.
    by rewrite selectIds_cons.
Qed.

Lemma mark_in ids b n :
  id n ∈ ids → mark ids b n = setSelected (Some b) n.
Proof. intros Hin. unfold mark. by rewrite decide_True. Qed.

Lemma mark_out ids b n : id n ∉ ids → mark ids b n = n.
Proof. intros Hin. unfold mark. by rewrite decide_False. Qed.

Lemma id_mark ids b n : id (mark ids b n) = id n.
Proof. unfold mark. by case_decide. Qed.

Lemma level_mark ids b n : level (mark ids b n) = level n.
Proof. unfold mark. by case_decide. Qed.

Lemma shape_withNodes_selectIds g ids b :
  shape (withNodes g (selectIds ids b (nodes g))) = shape g.
Proof.
  unfold shape, withNodes, selectIds. simpl. f_equal.
  rewrite <-list_fmap_compose. apply list_fmap_ext. intros _ n _.
  unfold mark. simpl.
  by case_decide.
Qed.

Lemma shape_setNodeAttrs_selected g j b :
  shape (setNodeAttrs j (selectedAttr b) g).2 = shape g.
Proof.
  rewrite setNodeAttrs_run. unfold shape, withNodes. simpl. f_equal.
  rewrite <-list_fmap_compose. apply list_fmap_ext. intros _ n _. simpl.
  by case_decide.
Qed.

(** Whatever its outcome, the loop changes selection flags only. *)
Lemma shape_selectAll b l g : shape (selectAll b l g).2 = shape g.
Proof.
  revert g. induction l as [|[n|] l IH]; intros g; [done| |done].
  by rewrite selectAll_cons_Some, IH, shape_setNodeAttrs_selected.
Qed.

Lemma toggle_unfold fuel i g node :
  nodesById g !! i = Some node →
  toggle fuel i g
  = match toggleSets g fuel node with
    | Ok sets =>
        bind (selectAll false sets.1) (λ _,
        bind (selectAll true sets.2) (λ _,
          setNodeAttrs (id node)
            (selectedAttr (negb (truthy (selected node)))))) g
    | Throw e => (Throw e, g)
    | OutOfFuel => (OutOfFuel, g)
    end.
Proof.
  intros Hnode. unfold toggle, toggleSets, bind at 1, this. rewrite Hnode.
  destruct (truthy (selected node)).
  - case_decide; [reflexivity|].
    unfold bind at 1 2, lift.
    by destruct (getHierarchyNodes _ _ _ _ _).
  - unfold bind at 1 2, lift.
    by destruct (getHierarchyNodes _ _ _ _ _).
Qed.

(** The instance [toggle] returns with, when the two arrays hold nodes
    only. *)
Lemma toggle_returns fuel i g node us ss :
  nodesById g !! i = Some node →
  toggleSets g fuel node = Ok (Some <$> us, Some <$> ss) →
  toggle fuel i g
  = (Ok tt,
     withNodes g
       (selectIds [id node] (negb (truthy (selected node)))
          (selectIds (id <$> ss) true
             (selectIds (id <$> us) false (nodes g))))).
Proof.
  intros Hnode Hsets. rewrite (toggle_unfold _ _ _ _ Hnode), Hsets. simpl.
  unfold bind. rewrite selectAll_Some. simpl.
  rewrite selectAll_Some. simpl. rewrite setNodeAttrs_run. simpl.
  unfold withNodes. simpl. f_equal. f_equal.
  rewrite <-(selectIds_nil (negb (truthy (selected node)))
               ((λ n, if decide (id n = id node) then _ else n) <$> _)).
  by rewrite selectIds_cons.
Qed.

(** Whatever its outcome, [toggle] changes selection flags only. *)
Lemma shape_toggle fuel i g : shape (toggle fuel i g).2 = shape g.
Proof.
  destruct (nodesById g !! i) as [node|] eqn:Hnode.
  - rewrite (toggle_unfold _ _ _ _ Hnode).
    destruct (toggleSets g fuel node) as [[us ss]| |]; [|done|done].
    unfold bind. cbn [fst snd].
    pose proof (shape_selectAll false us g) as H1.
    destruct (selectAll false us g) as [[[]| |] g1]; cbn [fst snd] in *;
      [|done|done].
    pose proof (shape_selectAll true ss g1) as H2.
    destruct (selectAll true ss g1) as [[[]| |] g2]; cbn [fst snd] in *;
      [|congruence|congruence].
    rewrite shape_setNodeAttrs_selected. congruence.
  - by rewrite toggle_None.
Qed.
End Selection.

Section ToggleRoot.
Context {T : Type}.
Implicit Types (g : GraphDb T) (node n m root : INode T) (i j : Z).

(** With distinct ids, two nodes of the graph with the same id are the
    same node. *)
Lemma node_of_id g n m :
  NoDup (id <$> nodes g) → n ∈ nodes g → m ∈ nodes g → id n = id m → n = m.
Proof.
  intros Hnd Hn Hm Hid.
  pose proof (nodesById_NoDup g n Hnd Hn) as Hn'.
  pose proof (nodesById_NoDup g m Hnd Hm) as Hm'.
  rewrite Hid in Hn'. congruence.
Qed.


Lemma elem_of_upstreamNodes g n :
  n ∈ upstreamNodes g ↔ level n < 0 ∧ n ∈ nodes g.
Proof. unfold upstreamNodes. by rewrite list_elem_of_filter. Qed.


Lemma id_upstream g n :
  NoDup (id <$> nodes g) → n ∈ nodes g →
  id n ∈ id <$> upstreamNodes g ↔ level n < 0.
Proof.
  intros Hnd Hn. split.
  - intros (m & Hid & [Hm Hin]%elem_of_upstreamNodes)%list_elem_of_fmap.
    by rewrite (node_of_id g n m Hnd Hn Hin Hid).
  - intros Hlevel. apply list_elem_of_fmap_2.
    by apply elem_of_upstreamNodes.
Qed.

End ToggleRoot.


(** ** Termination of the traversal on leveled graphs *)

Section Termination.
Context {T : Type}.
Implicit Types (g : GraphDb T) (node n m : INode T) (i stop lo hi : Z).
Implicit Types (up : bool) (entry : option (INode T)).
Implicit Types (l explored current : list (option (INode T))).

(** On a leveled graph the expansion of a node succeeds, and gives nodes
    one or more levels further in the direction of the traversal. *)
Lemma expandStep_leveled g up stop n :
  leveled g → nodesById g !! id n = Some n →
  ∃ found,
    expandStep g up stop [] (Some n) = Ok found
    ∧ Forall (λ entry, ∃ m, entry = Some m ∧ nodesById g !! id m = Some m
                ∧ if up then level m < level n else level n < level m)
             found.
Proof.
  intros Hlev Hn. unfold expandStep.
  case_decide; [|by exists []].
  assert (Hid : id n ∈ id <$> nodes g).
  { apply list_elem_of_fmap_2. by apply (nodesById_Some g (id n)). }
  destruct up.
  - rewrite parentsByNodeId_lookup, decide_True by done.
    eexists. split; [done|].
    apply Forall_fmap, Forall_forall.
    intros e [Hfrom He]%list_elem_of_filter. simpl.
    destruct (Hlev e He) as (a & b & Ha & Hb & Hlt).
    rewrite Hfrom, Hn in Ha. injection Ha as <-.
    exists b. split; [done|]. split; [|done].
    destruct (nodesById_Some _ _ _ Hb) as [_ ->]. done.
  - rewrite childrenByNodeId_lookup, decide_True by done.
    eexists. split; [done|].
    apply Forall_fmap, Forall_forall.
    intros e [Hto He]%list_elem_of_filter. simpl.
    destruct (Hlev e He) as (a & b & Ha & Hb & Hlt).
    rewrite Hto, Hn in Hb. injection Hb as <-.
    exists a. split; [done|]. split; [|done].
    destruct (nodesById_Some _ _ _ Ha) as [_ ->]. done.
Qed.

Lemma expandFrontier_leveled g up stop lo hi fuel current :
  leveled g →
  Forall (withinReach g up lo hi (S fuel)) current →
  ∃ newNodes,
    expandFrontier g up stop current = Ok newNodes
    ∧ Forall (withinReach g up lo hi fuel) newNodes.
Proof.
  intros Hlev Hcur.
  induction Hcur as [|entry current (n & -> & Hn & Hrank) _ IH].
  - by exists [].
  - destruct IH as (rest & Hrest & Hgood).
    destruct (expandStep_leveled g up stop n Hlev Hn)
      as (found & Hfound & Hnext).
    exists (found ++ rest). rewrite expandFrontier_cons, Hfound, Hrest.
    split; [done|]. apply Forall_app. split; [|done].
    eapply Forall_impl; [exact Hnext|].
    intros entry (m & -> & Hm & Hlt). exists m.
    split; [done|]. split; [done|]. destruct up; lia.
Qed.

Lemma withinReach_is_Some g up lo hi fuel entry :
  withinReach g up lo hi fuel entry → is_Some entry.
Proof. by intros (n & -> & _). Qed.

(** The loop returns within [fuel] passes when every frontier node is at
    fewer than [fuel] levels from the end of the range of levels. *)
Lemma hierarchyLoop_leveled g up stop lo hi fuel explored current :
  leveled g →
  (∀ n, n ∈ nodes g → lo ≤ level n ≤ hi) →
  Forall is_Some explored →
  Forall (withinReach g up lo hi fuel) current →
  ∃ l, hierarchyLoop g up stop fuel explored current = Ok l
       ∧ Forall is_Some l.
Proof.
  intros Hlev Hrange. revert explored current.
  induction fuel as [|fuel IH]; intros explored current Hexp Hcur.
  - destruct current as [|entry current]; [by exists explored|].
    apply Forall_cons in Hcur as [(n & _ & Hn & Hrank) _].
    apply nodesById_Some in Hn as [Hn _].
    specialize (Hrange n Hn). destruct up; lia.
  - destruct current as [|entry current]; [by exists explored|].
    destruct (expandFrontier_leveled g up stop lo hi fuel _ Hlev Hcur)
      as (newNodes & Hnew & Hgood).
    simpl. rewrite Hnew. simpl. apply IH; [|done].
    apply Forall_app. split; [done|].
    eapply Forall_impl; [exact Hgood|].
    intros e. apply withinReach_is_Some.
Qed.

Lemma Forall_is_Some {A} (os : list (option A)) :
  Forall is_Some os → ∃ xs : list A, os = Some <$> xs.
Proof.
  induction 1 as [|o os [a ->] _ [xs ->]]; [by exists []|].
  by exists (a :: xs).
Qed.

(** On a leveled graph whose levels span [lo..hi], [getHierarchyNodes]
    from a node of the graph returns an array of nodes, in either
    direction and for any stop level, within [hi - lo + 1] passes. *)
Lemma getHierarchyNodes_leveled g fuel node up stop lo hi :
  leveled g →
  (∀ n, n ∈ nodes g → lo ≤ level n ≤ hi) →
  nodesById g !! id node = Some node →
  hi - lo < Z.of_nat fuel →
  ∃ found, getHierarchyNodes g fuel node up stop = Ok (Some <$> found).
Proof.
  intros Hlev Hrange Hnode Hfuel.
  assert (Hseed : Forall (withinReach g up lo hi fuel) [Some node]).
  { apply Forall_singleton. exists node. split; [done|]. split; [done|].
    apply nodesById_Some in Hnode as [Hin _].
    specialize (Hrange node Hin). destruct up; lia. }
  destruct (hierarchyLoop_leveled g up stop lo hi fuel [Some node]
              [Some node] Hlev Hrange) as (l & Hl & Hsome);
    [by apply Forall_singleton | done |].
  destruct (Forall_is_Some l Hsome) as [found ->].
  by exists found.
Qed.

Lemma toggleSets_leveled g fuel node lo hi :
  leveled g →
  (∀ n, n ∈ nodes g → lo ≤ level n ≤ hi) →
  nodesById g !! id node = Some node →
  hi - lo < Z.of_nat fuel →
  ∃ us ss, toggleSets g fuel node = Ok (Some <$> us, Some <$> ss).
Proof.
  intros Hlev Hrange Hnode Hfuel. unfold toggleSets.
  destruct (truthy (selected node)).
  - case_decide; [by exists (nodes g), []|].
    destruct (getHierarchyNodes_leveled g fuel node (getIsUpstream node) 0
                lo hi Hlev Hrange Hnode Hfuel) as [found ->].
    by exists found, [].
  - destruct (getHierarchyNodes_leveled g fuel node
                (negb (getIsUpstream node)) 0
                lo hi Hlev Hrange Hnode Hfuel) as [found ->].
    by eexists _, found.
Qed.
End Termination.

(** ** Two toggles in a row *)

Section ToggleTwice.
Context {T : Type}.
Implicit Types (g : GraphDb T) (node n m : INode T) (i lo hi : Z).

Lemma nodesById_shape g i :
  nodesById (shape g) !! i = setSelected None <$> (nodesById g !! i).
Proof. unfold nodesById, shape. simpl. by apply keyBy_fmap. Qed.

Lemma shape_edges g g' : shape g = shape g' → edges g = edges g'.
Proof. intros H. by apply (f_equal edges) in H. Qed.

Lemma shape_levels g g' :
  shape g = shape g' → (level <$> nodes g) = (level <$> nodes g').
Proof.
  intros H. apply (f_equal (λ g, level <$> nodes g)) in H.
  unfold shape in H. simpl in H.
  by rewrite <-!list_fmap_compose in H.
Qed.

Lemma shape_ids g g' :
  shape g = shape g' → (id <$> nodes g) = (id <$> nodes g').
Proof.
  intros H. apply (f_equal (λ g, id <$> nodes g)) in H.
  unfold shape in H. simpl in H.
  by rewrite <-!list_fmap_compose in H.
Qed.

Lemma shape_nodesById g g' i n :
  shape g = shape g' → nodesById g !! i = Some n →
  ∃ n', nodesById g' !! i = Some n' ∧ level n' = level n.
Proof.
  intros Hshape Hn.
  pose proof (nodesById_shape g i) as H1.
  pose proof (nodesById_shape g' i) as H2.
  rewrite Hshape, H2, Hn in H1.
  destruct (nodesById g' !! i) as [n'|]; [|done].
  exists n'. split; [done|]. simpl in H1.
  apply (f_equal (fmap (M := option) level)) in H1. by injection H1.
Qed.

Lemma leveled_shape g g' : shape g = shape g' → leveled g → leveled g'.
Proof.
  intros Hshape Hlev e He. rewrite <-(shape_edges _ _ Hshape) in He.
  destruct (Hlev e He) as (a & b & Ha & Hb & Hlt).
  destruct (shape_nodesById _ _ _ _ Hshape Ha) as (a' & Ha' & Hla).
  destruct (shape_nodesById _ _ _ _ Hshape Hb) as (b' & Hb' & Hlb).
  exists a', b'. split; [done|]. split; [done|]. lia.
Qed.

Lemma range_shape g g' lo hi :
  shape g = shape g' →
  (∀ n, n ∈ nodes g → lo ≤ level n ≤ hi) →
  ∀ n, n ∈ nodes g' → lo ≤ level n ≤ hi.
Proof.
  intros Hshape%shape_levels Hrange n Hn.
  apply (list_elem_of_fmap_2 level) in Hn. rewrite <-Hshape in Hn.
  apply list_elem_of_fmap in Hn as (m & -> & Hm). by apply Hrange.
Qed.

(** On a leveled graph [toggle] of a present id returns; afterwards the
    flag of the node of that id is the negation of what it was. *)
Lemma toggle_leveled fuel g i node lo hi :
  leveled g →
  (∀ n, n ∈ nodes g → lo ≤ level n ≤ hi) →
  hi - lo < Z.of_nat fuel →
  nodesById g !! i = Some node →
  ∃ g1 node1,
    toggle fuel i g = (Ok tt, g1)
    ∧ nodesById g1 !! i = Some node1
    ∧ (∀ n, n ∈ nodes g1 → id n = i →
         selected n = Some (negb (truthy (selected node)))).
Proof.
  intros Hlev Hrange Hfuel Hnode.
  destruct (nodesById_Some _ _ _ Hnode) as [Hin Hid].
  assert (Hself : nodesById g !! id node = Some node) by by rewrite Hid.
  destruct (toggleSets_leveled g fuel node lo hi Hlev Hrange Hself Hfuel)
    as (us & ss & Hsets).
  rewrite (toggle_returns fuel i g node us ss Hnode Hsets).
  set (b := negb (truthy (selected node))).
  assert (Hflag : ∀ n, n ∈ nodes (withNodes g
                    (selectIds [id node] b
                       (selectIds (id <$> ss) true
                          (selectIds (id <$> us) false (nodes g))))) →
                  id n = i → selected n = Some b).
  { simpl. unfold selectIds at 1.
    intros n (m & -> & _)%list_elem_of_fmap. rewrite id_mark.
    intros Hm. rewrite mark_in; [done|].
    apply list_elem_of_singleton. congruence. }
  assert (Hsome : is_Some (nodesById (withNodes g
                    (selectIds [id node] b
                       (selectIds (id <$> ss) true
                          (selectIds (id <$> us) false (nodes g))))) !! i)).
  { apply keyBy_lookup_is_Some. simpl. unfold selectIds.
    rewrite <-!list_fmap_compose.
    rewrite (list_fmap_ext _ id (nodes g));
      [|intros _ x _; simpl; by rewrite !id_mark].
    rewrite <-Hid. by apply list_elem_of_fmap_2. }
  destruct Hsome as [node1 Hnode1].
  eexists _, node1. split; [done|]. split; [done|]. done.
Qed.

(** C1 (as amended).  On a leveled graph whose levels span [lo..hi],
    and for an id that [nodesById] holds, two calls of [toggle(id)] in a
    row both return (given [hi - lo + 1] passes of fuel); afterwards
    every node of that id, and so the node that [nodesById] gives for
    it, has the truth value of [selected] that the toggled node had
    before the first call, and only selection flags have changed.  The
    flags of the other nodes are not claimed to be restored. *)
Theorem toggle_twice_restores_toggled fuel g i node lo hi :
  leveled g →
  (∀ n, n ∈ nodes g → lo ≤ level n ≤ hi) →
  hi - lo < Z.of_nat fuel →
  nodesById g !! i = Some node →
  ∃ g1 g2 node2,
    toggle fuel i g = (Ok tt, g1)
    ∧ toggle fuel i g1 = (Ok tt, g2)
    ∧ nodesById g2 !! i = Some node2
    ∧ selected node2 = Some (truthy (selected node))
    ∧ (∀ n, n ∈ nodes g2 → id n = i →
         selected n = Some (truthy (selected node)))
    ∧ shape g2 = shape g.
Proof.
  intros Hlev Hrange Hfuel Hnode.
  destruct (toggle_leveled fuel g i node lo hi Hlev Hrange Hfuel Hnode)
    as (g1 & node1 & Hrun1 & Hnode1 & Hflag1).
  assert (Hshape1 : shape g1 = shape g).
  { pose proof (shape_toggle fuel i g) as H. by rewrite Hrun1 in H. }
  assert (Hsel1 : selected node1 = Some (negb (truthy (selected node)))).
  { destruct (nodesById_Some _ _ _ Hnode1). by apply Hflag1. }
  destruct (toggle_leveled fuel g1 i node1 lo hi) as
    (g2 & node2 & Hrun2 & Hnode2 & Hflag2); [| |done|done|].
  { by apply (leveled_shape g). }
  { by apply (range_shape g). }
  rewrite Hsel1 in Hflag2. simpl in Hflag2. rewrite negb_involutive in Hflag2.
  exists g1, g2, node2. split; [done|]. split; [done|]. split; [done|].
  split; [|split; [done|]].
  - destruct (nodesById_Some _ _ _ Hnode2). by apply Hflag2.
  - pose proof (shape_toggle fuel i g1) as H. rewrite Hrun2 in H.
    simpl in H. congruence.
Qed.
End ToggleTwice.

(** C1: on the lineage graph (root [A], [B] upstream, [C] downstream, no
    node selected), [toggle(3)] twice leaves the root [A] selected. *)
Lemma lineage_root_stays_selected :
  ∃ g1 g2,
    toggle 3 3 lineage = (Ok tt, g1) ∧ toggle 3 3 g1 = (Ok tt, g2)
    ∧ (selected <$> nodes lineage) = [None; None; None]
    ∧ (selected <$> nodes g1) = [Some true; None; Some true]
    ∧ (selected <$> nodes g2) = [Some true; None; Some false]
    ∧ (truthy ∘ selected <$> nodes g2) ≠ (truthy ∘ selected <$> nodes lineage).
Proof. eexists _, _. by vm_compute. Qed.

Lemma lineage_toggle_twice :
  leveled lineage
  ∧ (∀ n, n ∈ nodes lineage → -1 ≤ level n ≤ 1)
  ∧ ∃ g1 g2 node2,
      toggle 3 3 lineage = (Ok tt, g1)
      ∧ toggle 3 3 g1 = (Ok tt, g2)
      ∧ nodesById g2 !! 3 = Some node2
      ∧ selected node2 = Some false.
Proof.
  assert (Hlev : leveled lineage).
  { intros e He. apply list_elem_of_In in He. vm_compute in He.
    destruct He as [<-|[<-|[]]].
    - exists (mkNode 1 0 None None (Some "A")),
        (mkNode 2 (-1) None None (Some "B")). by vm_compute.
    - exists (mkNode 3 1 None None (Some "C")),
        (mkNode 1 0 None None (Some "A")). by vm_compute. }
  assert (Hrange : ∀ n, n ∈ nodes lineage → -1 ≤ level n ≤ 1).
  { intros n Hn. apply list_elem_of_In in Hn. vm_compute in Hn.
    destruct Hn as [<-|[<-|[<-|[]]]]; simpl; lia. }
  split; [exact Hlev|]. split; [exact Hrange|].
  assert (Hfuel : 1 - -1 < Z.of_nat 3) by lia.
  assert (Hnode : nodesById lineage !! 3 = Some (mkNode 3 1 None None (Some "C")))
    by (by vm_compute).
  destruct (toggle_twice_restores_toggled 3 lineage 3 _ (-1) 1
              Hlev Hrange Hfuel Hnode)
    as (g1 & g2 & node2 & H1 & H2 & H3 & H4 & _).
  by exists g1, g2, node2.
Defined.

(** ** Ids over sequences of calls *)

Section Ids.
Context {T : Type} (get : T → string → option string).
Implicit Types (g : GraphDb T) (node n : INode T) (i : Z).
Implicit Types (o : operation T) (os : list (operation T)).

Lemma addNode_ids p parentNode up g :
  let g' := (addNode get p parentNode up g).2 in
  (nodes g' = nodes g ∧ idGenerator g' = idGenerator g)
  ∨ (∃ n, nodes g' = nodes g ++ [n] ∧ id n = idGenerator g
          ∧ idGenerator g' = idGenerator g + 1).
Proof.
  unfold addNode, bind, this, ret, setProperties. simpl.
  destruct (findNode get g p) as [found|]; simpl.
  - left. destruct parentNode as [parentNode|]; simpl; [|done].
    rewrite addEdge_run. by simpl.
  - right. destruct parentNode as [parentNode|]; simpl; eexists.
    + rewrite addEdge_run. simpl. split; [reflexivity | by split].
    + split; [reflexivity | by split].
Qed.

(** A call that patches no id keeps the nodes there are, with their ids
    and in their order, and either adds nothing or appends one node with
    the id the generator held. *)
Lemma perform_ids o g :
  keepsId o →
  let g' := perform get o g in
  ((id <$> nodes g') = (id <$> nodes g) ∧ idGenerator g' = idGenerator g)
  ∨ ((id <$> nodes g') = (id <$> nodes g) ++ [idGenerator g]
     ∧ idGenerator g' = idGenerator g + 1).
Proof.
  intros Hkeeps. destruct o as [p parentNode up|parent child|i attrs|fuel i];
    cbn [perform].
  - destruct (addNode_ids p parentNode up g)
      as [[-> ->] | (n & -> & <- & ->)]; [by left|].
    right. by rewrite fmap_app.
  - left. by rewrite addEdge_run.
  - left. rewrite setNodeAttrs_run. simpl. split; [|done].
    rewrite <-list_fmap_compose. apply list_fmap_ext. intros _ n _. simpl.
    case_decide; [|done]. unfold spread. simpl in Hkeeps.
    by rewrite Hkeeps.
  - left. pose proof (shape_toggle fuel i g) as Hshape.
    split; [by apply shape_ids|].
    by apply (f_equal idGenerator) in Hshape.
Qed.

Lemma numbered_ids g :
  numbered g ↔
  (∀ (pos : nat) j, (id <$> nodes g) !! pos = Some j → j = Z.of_nat pos + 1)
  ∧ idGenerator g = Z.of_nat (length (id <$> nodes g)) + 1.
Proof.
  unfold numbered. rewrite length_fmap. split; intros [Hpos Hnext].
  - split; [|done]. intros pos j. rewrite list_lookup_fmap.
    destruct (nodes g !! pos) as [n|] eqn:Hn; [|done].
    intros [= <-]. by apply Hpos.
  - split; [|done]. intros pos n Hn. apply Hpos.
    by rewrite list_lookup_fmap, Hn.
Qed.

Lemma numbered_perform o g : keepsId o → numbered g → numbered (perform get o g).
Proof.
  intros Hkeeps. rewrite !numbered_ids. intros [Hpos Hnext].
  destruct (perform_ids o g Hkeeps) as [[-> ->] | [-> ->]]; [done|].
  rewrite length_app. simpl. split; [|lia].
  intros pos j [Hj | [Hlen Hj]]%lookup_app_Some; [by apply Hpos|].
  destruct (pos - length (id <$> nodes g))%nat as [|k] eqn:Hk; [|done].
  simpl in Hj. injection Hj as <-. lia.
Qed.

(** C8 (as amended).  Start from a fresh instance and perform any
    sequence of [addNode], [addEdge], [setNodeAttrs] and [toggle] calls
    in which no [setNodeAttrs] patch carries an [id].  Then the node at
    position [pos] of the collection, the [pos + 1]-th node created, has
    id [pos + 1], and the generator holds the next id, so ids are
    1, 2, 3, ... in creation order and none is reused; and one more such
    call keeps the ids of the nodes there are, adding at most one after
    them. *)
Theorem ids_in_creation_order keys os :
  Forall keepsId os →
  let g := performAll get os (newGraphDb keys) in
  (∀ (pos : nat) n, nodes g !! pos = Some n → id n = Z.of_nat pos + 1)
  ∧ idGenerator g = Z.of_nat (length (nodes g)) + 1
  ∧ (∀ o, keepsId o →
       (id <$> nodes g) `prefix_of` (id <$> nodes (perform get o g))).
Proof.
  intros Hos g.
  assert (Hnum : numbered g).
  { subst g. induction os as [|o os IH] using rev_ind.
    - split; [by intros pos n ?|done].
    - apply Forall_app in Hos as [Hos Ho].
      apply (proj1 (Forall_singleton _ _)) in Ho.
      unfold performAll. rewrite foldl_app. simpl.
      apply numbered_perform; [done | by apply IH]. }
  destruct Hnum as [Hpos Hnext]. split; [done|]. split; [done|].
  intros o Ho. destruct (perform_ids o g Ho) as [[-> _] | [-> _]].
  - done.
  - by apply prefix_app_r.
Qed.
End Ids.

(** C8: a patch that carries an [id] changes the id of an existing node. *)
Lemma setNodeAttrs_changes_id :
  (id <$> nodes lineage) = [1; 2; 3]
  ∧ (id <$> nodes
       (setNodeAttrs 1 (mkAttrs (Some 7) None None None None) lineage).2)
    = [7; 2; 3].
Proof. by vm_compute. Qed.

Lemma lineage_ids :
  let a := mkNode 1 0 None None (Some "A") in
  let os := [AddNode "A" None false; AddNode "B" (Some a) true;
             SetNodeAttrs 1 (selectedAttr true); AddNode "C" (Some a) false;
             Toggle 3 3; AddEdge a a; AddNode "B" (Some a) false] in
  Forall keepsId os
  ∧ (id <$> nodes (performAll urn os (newGraphDb ["urn"]))) = [1; 2; 3]
  ∧ idGenerator (performAll urn os (newGraphDb ["urn"])) = 4.
Proof.
  intros a os.
  assert (Hos : Forall keepsId os) by (repeat constructor).
  split; [exact Hos|].
  destruct (ids_in_creation_order urn ["urn"] os Hos) as (Hpos & Hnext & _).
  split; [|rewrite Hnext; by vm_compute].
  by vm_compute.
Defined.

(** ** Why the hypotheses are there *)

(** Graphs built by calls that patch no id have distinct node ids. *)
Lemma numbered_NoDup {T} (g : GraphDb T) : numbered g → NoDup (id <$> nodes g).
Proof.
  intros [Hpos _]%numbered_ids. apply NoDup_alt. intros p q j Hp Hq.
  apply Hpos in Hp, Hq. lia.
Qed.

(** On a node with an edge to itself the traversal never ends: every
    amount of fuel is used up. *)
Lemma selfLoop_diverges fuel :
  getHierarchyNodes selfLoop fuel (mkNode 2 1 None None (Some "B")) true 0
  = OutOfFuel.
Proof.
  unfold getHierarchyNodes.
  generalize ([Some (mkNode 2 1 None None (Some "B"))]) at 1 as explored.
  assert (Hloop : ∀ fuel frontier explored,
    Forall (λ entry, entry = Some (mkNode 1 0 None None (Some "A"))
                     ∨ entry = Some (mkNode 2 1 None None (Some "B")))
           frontier →
    hierarchyLoop selfLoop true 0 fuel explored
      (frontier ++ [Some (mkNode 2 1 None None (Some "B"))]) = OutOfFuel).
  { clear fuel. induction fuel as [|fuel IH]; intros frontier explored Hfr.
    - by destruct frontier.
    - assert (Hnext : ∃ next,
        expandFrontier selfLoop true 0
          (frontier ++ [Some (mkNode 2 1 None None (Some "B"))])
        = Ok (next ++ [Some (mkNode 2 1 None None (Some "B"))])
        ∧ Forall (λ entry, entry = Some (mkNode 1 0 None None (Some "A"))
                     ∨ entry = Some (mkNode 2 1 None None (Some "B"))) next).
      { clear IH. induction Hfr as [|entry frontier [->| ->] _ (next & Hn & Hgood)].
        - exists [Some (mkNode 1 0 None None (Some "A"))]. split; [by vm_compute|].
          apply Forall_singleton. by left.
        - exists next. rewrite <-app_comm_cons, expandFrontier_cons, Hn.
          split; [by vm_compute | done].
        - exists ([Some (mkNode 1 0 None None (Some "A"));
                   Some (mkNode 2 1 None None (Some "B"))] ++ next).
          rewrite <-app_comm_cons, expandFrontier_cons, Hn.
          split; [by vm_compute|].
          apply Forall_app. split; [|done].
          apply Forall_cons. split; [by left|].
          apply Forall_singleton. by right. }
      destruct Hnext as (next & Hnext & Hgood).
      destruct (frontier ++ [Some (mkNode 2 1 None None (Some "B"))])
        as [|entry rest] eqn:Hfrontier; [by destruct frontier|].
      simpl. rewrite Hnext. simpl. by apply IH. }
  intros explored. by apply (Hloop fuel []).
Qed.

(** On an edge towards an id that is not a node, [toggle] throws. *)
Lemma dangling_throws :
  edges dangling = [mkEdge 2 1; mkEdge 2 9]
  ∧ toggle 5 2 dangling = (Throw TypeError, dangling).
Proof. by vm_compute. Qed.

(** Without any hypothesis on the graph: when [toggle(id)] returns for an
    id that [nodesById] holds, every node of that id ends with the negated
    flag. *)
Lemma toggle_returned_flag {T} fuel (g g1 : GraphDb T) i node :
  nodesById g !! i = Some node →
  toggle fuel i g = (Ok tt, g1) →
  ∀ n, n ∈ nodes g1 → id n = i →
       selected n = Some (negb (truthy (selected node))).
Proof.
  intros Hnode Hrun. rewrite (toggle_unfold _ _ _ _ Hnode) in Hrun.
  destruct (nodesById_Some _ _ _ Hnode) as [_ Hid].
  destruct (toggleSets g fuel node) as [sets| |]; [|done|done].
  unfold bind in Hrun.
  destruct (selectAll false sets.1 g) as [[[]| |] g']; [|done|done].
  destruct (selectAll true sets.2 g') as [[[]| |] g'']; [|done|done].
  rewrite setNodeAttrs_run in Hrun. injection Hrun as <-. simpl.
  intros n (m & -> & _)%list_elem_of_fmap.
  case_decide as Hm; [done|]. intros Hn. congruence.
Qed.

(** Hence, on any graph: when two calls of [toggle(id)] in a row both
    return, every node of that id ends with the truth value of the flag
    that the toggled node had before the first call. *)
Lemma toggle_twice_returned {T} fuel (g g1 g2 : GraphDb T) i node :
  nodesById g !! i = Some node →
  toggle fuel i g = (Ok tt, g1) →
  toggle fuel i g1 = (Ok tt, g2) →
  ∀ n, n ∈ nodes g2 → id n = i → selected n = Some (truthy (selected node)).
Proof.
  intros Hnode Hrun1 Hrun2.
  assert (Hshape : shape g1 = shape g).
  { pose proof (shape_toggle fuel i g) as H. by rewrite Hrun1 in H. }
  assert (Hsome : is_Some (nodesById g1 !! i)).
  { apply keyBy_lookup_is_Some. rewrite (shape_ids _ _ Hshape).
    apply keyBy_lookup_is_Some. by exists node. }
  destruct Hsome as [node1 Hnode1].
  destruct (nodesById_Some _ _ _ Hnode1) as [Hin1 Hid1].
  pose proof (toggle_returned_flag fuel g g1 i node Hnode Hrun1 node1 Hin1 Hid1)
    as Hsel1.
  intros n Hn Hid.
  rewrite (toggle_returned_flag fuel g1 g2 i node1 Hnode1 Hrun2 n Hn Hid).
  rewrite Hsel1. simpl. by rewrite negb_involutive.
Qed.

(** * Further properties of the class *)

(** ** Indexes and [findNode] *)

Section Lookup.
Context {T : Type} (get : T → string → option string).
Implicit Types (g : GraphDb T) (node n m : INode T) (p : T) (i : Z).
Implicit Types (key k : string).

Lemma keyBy_lookup_last `{Countable K} {A} (f : A → K) (l1 l2 : list A) a :
  f a ∉ f <$> l2 → keyBy f (l1 ++ a :: l2) !! f a = Some a.
Proof.
  induction l2 as [|b l2 IH] using rev_ind; intros Hlast.
  - by rewrite keyBy_snoc, lookup_insert_eq.
  - rewrite fmap_app in Hlast. apply not_elem_of_app in Hlast as [Hl2 Hb].
    assert (l1 ++ a :: l2 ++ [b] = (l1 ++ a :: l2) ++ [b]) as ->
      by (by rewrite <-app_assoc).
    rewrite keyBy_snoc, lookup_insert_ne.
    + by apply IH.
    + intros Heq. apply Hb. rewrite <-Heq. by left.
Qed.

(** Last write wins.  When several nodes share an id, [nodesById] holds
    the last of them; for a configured unique key, [uniqueIndexes] holds
    under a value the last node with that value; and it has no index for
    a key that is not configured. *)
Theorem indexes_last_wins g l1 n l2 :
  nodes g = l1 ++ n :: l2 →
  (id n ∉ id <$> l2 → nodesById g !! id n = Some n)
  ∧ (∀ key, key ∈ uniqueKeys g →
       payloadKey get key n ∉ payloadKey get key <$> l2 →
       ∃ index, uniqueIndexes get g !! key = Some index
                ∧ index !! payloadKey get key n = Some n)
  ∧ (∀ key, key ∉ uniqueKeys g → uniqueIndexes get g !! key = None).
Proof.
  intros Hnodes. split; [|split].
  - intros Hlast. unfold nodesById. rewrite Hnodes.
    by apply keyBy_lookup_last.
  - intros key Hkey Hlast. eexists. rewrite uniqueIndexes_lookup.
    rewrite decide_True by done. split; [done|].
    rewrite Hnodes. by apply keyBy_lookup_last.
  - intros key Hkey. rewrite uniqueIndexes_lookup. by rewrite decide_False.
Qed.

Lemma findNode_fold_None g p keys :
  (∀ k, k ∈ keys → k ∈ uniqueKeys g) →
  foldl (λ (object : option (INode T)) uniqueKey,
           match object with
           | Some _ => object
           | None =>
               let index := uniqueIndexes get g !!! uniqueKey in
               let propertyValue := toString (get p uniqueKey) in
               index !! propertyValue
           end) None keys = None
  ↔ ∀ k m, k ∈ keys → m ∈ nodes g → ¬ agrees get p k m.
Proof.
  induction keys as [|key keys IH]; intros Hkeys.
  - split; [by intros _ k m ?%elem_of_nil | done].
  - simpl. rewrite lookup_total_alt, uniqueIndexes_lookup.
    rewrite decide_True by (apply Hkeys; by left). simpl.
    destruct (keyBy _ _ !! _) as [found|] eqn:Hfound.
    + rewrite findNode_found. split; [done|]. intros Hno.
      apply keyBy_lookup_Some in Hfound as [Hin Hagree].
      exfalso. by apply (Hno key found); [left| |].
    + rewrite IH by (intros k Hk; apply Hkeys; by right).
      apply keyBy_lookup_None in Hfound. split.
      * intros Hno k m [->|Hk]%elem_of_cons Hm; [|by apply Hno].
        intros Hagree. apply Hfound. rewrite <-Hagree.
        by apply list_elem_of_fmap_2.
      * intros Hno k m Hk. apply Hno. by right.
Qed.

Lemma findNode_None g p :
  findNode get g p = None
  ↔ ∀ k m, k ∈ uniqueKeys g → m ∈ nodes g → ¬ agrees get p k m.
Proof. by apply findNode_fold_None. Qed.


End Lookup.

Lemma twins_last_wins :
  let n1 := mkNode 1 0 None None (Some "A") in
  let n2 := mkNode 2 1 None None (Some "A") in
  nodes twins = [n1] ++ n2 :: []
  ∧ ∃ index, uniqueIndexes urn twins !! "urn" = Some index
             ∧ index !! "A" = Some n2.
Proof.
  intros n1 n2. split; [reflexivity|].
  destruct (indexes_last_wins urn twins [n1] n2 [] eq_refl) as (_ & H & _).
  apply (H "urn").
  - apply list_elem_of_In. vm_compute. tauto.
  - apply not_elem_of_nil.
Defined.

(** ** [addNode] with a parent *)

Section AddNodeParent.
Context {T : Type} (get : T → string → option string).
Implicit Types (g : GraphDb T) (node n m parent : INode T) (p : T) (i : Z).
Implicit Types (up : bool).

Lemma addNode_run p (parentNode : option (INode T)) up g :
  addNode get p parentNode up g
  = let level :=
      match parentNode with
      | Some parent => if up then level parent - 1 else level parent + 1
      | None => 0
      end in
    let n := default (mkNode (idGenerator g) level None None (Some p))
                     (findNode get g p) in
    let g1 := match findNode get g p with
              | Some _ => g
              | None => mkGraphDb (nodes g ++ [n]) (edges g) (uniqueKeys g)
                                  (idGenerator g + 1)
              end in
    (Ok n,
     match parentNode with
     | Some parent =>
         (addEdge (if up then n else parent) (if up then parent else n) g1).2
     | None => g1
     end).
Proof.
  unfold addNode, bind, this, ret, setProperties. simpl.
  destruct (findNode get g p) as [found|]; simpl;
    destruct parentNode as [parent|]; simpl; try done;
    by rewrite addEdge_run.
Qed.


Lemma addNode_grows p (parentNode : option (INode T)) up g :
  nodes g `prefix_of` nodes (addNode get p parentNode up g).2
  ∧ edges g `prefix_of` edges (addNode get p parentNode up g).2
  ∧ uniqueKeys (addNode get p parentNode up g).2 = uniqueKeys g.
Proof.
  rewrite addNode_run. cbv zeta.
  assert (Hedge : ∀ parent child g1,
            nodes (addEdge parent child g1).2 = nodes g1
            ∧ edges g1 `prefix_of` edges (addEdge parent child g1).2
            ∧ uniqueKeys (addEdge parent child g1).2 = uniqueKeys g1).
  { intros parent child g1. rewrite addEdge_run. simpl.
    split; [done|]. split; [|done].
    case_decide; [done | by apply prefix_app_r]. }
  destruct (findNode get g p) as [found|];
    destruct parentNode as [parent|]; cbv beta iota; cbn [fst snd].
  - match goal with
    | |- context [addEdge ?x ?y ?g1] =>
        destruct (Hedge x y g1) as (-> & ? & ->)
    end.
    done.
  - done.
  - match goal with
    | |- context [addEdge ?x ?y ?g1] =>
        destruct (Hedge x y g1) as (-> & ? & ->)
    end.
    simpl in *. split; [by apply prefix_app_r | done].
  - simpl. split; [by apply prefix_app_r | done].
Qed.

(** With no unique key configured nothing is ever found, and every
    [addNode] appends a node with the id the generator holds. *)
Theorem addNode_unkeyed_appends p (parentNode : option (INode T)) up g :
  uniqueKeys g = [] →
  ∃ n g',
    addNode get p parentNode up g = (Ok n, g')
    ∧ id n = idGenerator g ∧ payload n = Some p
    ∧ nodes g' = nodes g ++ [n]
    ∧ idGenerator g' = idGenerator g + 1.
Proof.
  intros Hkeys. rewrite addNode_run. cbv zeta.
  assert (Hfind : findNode get g p = None).
  { unfold findNode. by rewrite Hkeys. }
  rewrite Hfind. simpl. eexists _, _. split; [done|].
  destruct parentNode as [parent|]; [|done].
  rewrite addEdge_run. by simpl.
Qed.

(** After [addNode], with or without a parent, [findNode] of the same
    payload gives the node that [addNode] returned, as soon as one unique
    key is configured. *)
Theorem findNode_after_addNode p (parentNode : option (INode T)) up g :
  uniqueKeys g ≠ [] →
  ∃ n g',
    addNode get p parentNode up g = (Ok n, g')
    ∧ findNode get g' p = Some n.
Proof.
  intros Hkeys. rewrite addNode_run. cbv zeta. eexists _, _. split; [done|].
  destruct (findNode get g p) as [found|] eqn:Hfind; simpl.
  - destruct parentNode as [parent|]; [|done].
    rewrite addEdge_run. simpl. exact Hfind.
  - destruct parentNode as [parent|]; simpl.
    + rewrite addEdge_run. simpl.
      by apply (findNode_appended get g p _ (idGenerator g + 1)).
    + by apply findNode_appended.
Qed.

(** A new node under a parent of the graph comes one level below the
    parent when [upstream] and one level above it otherwise, and a leveled
    graph stays leveled, provided the generator holds an id that no node
    has. *)
Theorem addNode_new_keeps_leveled p parent up g :
  leveled g →
  idGenerator g ∉ id <$> nodes g →
  findNode get g p = None →
  nodesById g !! id parent = Some parent →
  ∃ n g',
    addNode get p (Some parent) up g = (Ok n, g')
    ∧ id n = idGenerator g
    ∧ level n = (if up then level parent - 1 else level parent + 1)
    ∧ nodesById g' !! id n = Some n
    ∧ leveled g'.
Proof.
  intros Hlev Hfresh Hfind Hparent. rewrite addNode_run. cbv zeta.
  rewrite Hfind. simpl. rewrite addEdge_run. simpl.
  set (n := mkNode (idGenerator g)
              (if up then level parent - 1 else level parent + 1)
              None None (Some p)).
  set (e := mkEdge (id (if up then parent else n))
                   (id (if up then n else parent))).
  eexists _, _. split; [done|]. split; [done|]. split; [done|].
  assert (Hnew : ∀ es next,
            nodesById (mkGraphDb (nodes g ++ [n]) es (uniqueKeys g) next)
              !! idGenerator g = Some n).
  { intros es next. unfold nodesById. simpl.
    by rewrite keyBy_snoc, lookup_insert_eq. }
  assert (Hold : ∀ es next j a,
            nodesById g !! j = Some a →
            nodesById (mkGraphDb (nodes g ++ [n]) es (uniqueKeys g) next)
              !! j = Some a).
  { intros es next j a Ha. unfold nodesById. simpl.
    rewrite keyBy_snoc, lookup_insert_ne; [done|].
    simpl. intros <-. apply Hfresh.
    destruct (nodesById_Some _ _ _ Ha) as [Hin <-].
    by apply list_elem_of_fmap_2. }
  split; [apply Hnew|].
  intros e' He'. simpl in He'.
  assert (Hcases : e' ∈ edges g ∨ e' = e).
  { case_decide; [by left|]. set_solver. }
  destruct Hcases as [Hin | ->].
  - destruct (Hlev e' Hin) as (a & b & Ha & Hb & Hlt).
    exists a, b. split; [by apply Hold|]. split; [by apply Hold|]. done.
  - subst e. destruct up; simpl.
    + exists parent, n. split; [by apply Hold|]. split; [apply Hnew|].
      simpl. lia.
    + exists n, parent. split; [apply Hnew|]. split; [by apply Hold|].
      simpl. lia.
Qed.
End AddNodeParent.

Lemma lineage_leveled : leveled lineage.
Proof.
  intros e He. apply list_elem_of_In in He. vm_compute in He.
  destruct He as [<-|[<-|[]]].
  - exists (mkNode 1 0 None None (Some "A")),
      (mkNode 2 (-1) None None (Some "B")). by vm_compute.
  - exists (mkNode 3 1 None None (Some "C")),
      (mkNode 1 0 None None (Some "A")). by vm_compute.
Qed.

Lemma unkeyed_addNode_appends :
  uniqueKeys unkeyed = []
  ∧ ∃ n g', addNode urn "A" None false unkeyed = (Ok n, g')
            ∧ id n = 1 ∧ nodes g' = [n].
Proof.
  split; [reflexivity|].
  destruct (addNode_unkeyed_appends urn "A" None false unkeyed eq_refl)
    as (n & g' & Hrun & Hid & _ & Hnodes & _).
  by exists n, g'.
Defined.

Lemma lineage_findNode_after_addNode :
  uniqueKeys lineage ≠ []
  ∧ ∃ n g',
      addNode urn "D" (Some (mkNode 3 1 None None (Some "C"))) false lineage
      = (Ok n, g')
      ∧ findNode urn g' "D" = Some n.
Proof.
  assert (H : uniqueKeys lineage ≠ []) by (by vm_compute).
  split; [exact H|].
  exact (findNode_after_addNode urn "D"
           (Some (mkNode 3 1 None None (Some "C"))) false lineage H).
Defined.

Lemma lineage_addNode_below_C :
  let c := mkNode 3 1 None None (Some "C") in
  ∃ n g', addNode urn "D" (Some c) false lineage = (Ok n, g')
          ∧ id n = 4 ∧ level n = 2 ∧ leveled g'.
Proof.
  intros c.
  assert (Hfresh : idGenerator lineage ∉ id <$> nodes lineage).
  { rewrite list_elem_of_In. vm_compute. intuition discriminate. }
  assert (Hfind : findNode urn lineage "D" = None) by (by vm_compute).
  assert (Hc : nodesById lineage !! id c = Some c) by (by vm_compute).
  destruct (addNode_new_keeps_leveled urn "D" c false lineage
              lineage_leveled Hfresh Hfind Hc)
    as (n & g' & Hrun & Hid & Hlevel & _ & Hlev).
  by exists n, g'.
Defined.

(** ** Invariants over sequences of calls *)

Section Sequences.
Context {T : Type} (get : T → string → option string).
Implicit Types (g : GraphDb T) (node n m : INode T) (p : T) (i : Z).
Implicit Types (o : operation T) (os : list (operation T)).

Lemma perform_grows o g :
  edges g `prefix_of` edges (perform get o g)
  ∧ (length (nodes g) ≤ length (nodes (perform get o g)))%nat
  ∧ uniqueKeys (perform get o g) = uniqueKeys g.
Proof.
  destruct o as [p parentNode up|parent child|i attrs|fuel i]; cbn [perform].
  - destruct (addNode_grows get p parentNode up g) as (Hnodes & Hedges & Hkeys).
    split; [done|]. split; [by apply prefix_length|done].
  - rewrite addEdge_run. simpl. split; [|done].
    case_decide; [done | by apply prefix_app_r].
  - rewrite setNodeAttrs_run. simpl. by rewrite length_fmap.
  - pose proof (shape_toggle fuel i g) as Hshape.
    split; [by rewrite (shape_edges _ _ Hshape)|]. split.
    + apply shape_ids, (f_equal length) in Hshape.
      rewrite !length_fmap in Hshape. lia.
    + by apply (f_equal uniqueKeys) in Hshape.
Qed.

(** Nothing is ever deleted: after any sequence of [addNode], [addEdge],
    [setNodeAttrs] and [toggle] calls the edges there were are still
    there, first and in their order, there are at least as many nodes,
    and the unique keys are the same. *)
Theorem calls_never_delete os g :
  edges g `prefix_of` edges (performAll get os g)
  ∧ (length (nodes g) ≤ length (nodes (performAll get os g)))%nat
  ∧ uniqueKeys (performAll get os g) = uniqueKeys g.
Proof.
  induction os as [|o os (IH1 & IH2 & IH3)] using rev_ind; [done|].
  unfold performAll in *. rewrite foldl_app. simpl.
  destruct (perform_grows o (foldl (λ g o, perform get o g) g os))
    as (H1 & H2 & H3).
  split; [by etrans|]. split; [lia|congruence].
Qed.

Lemma perform_edges_NoDup o g :
  NoDup (edges g) → NoDup (edges (perform get o g)).
Proof.
  intros Hnd.
  assert (Hadd : ∀ parent child g1,
            edges g1 = edges g → NoDup (edges (addEdge parent child g1).2)).
  { intros parent child g1 Hg1. rewrite addEdge_run. simpl. rewrite Hg1.
    case_decide; [done|]. apply NoDup_app. split; [done|].
    split; [|apply NoDup_singleton].
    intros e He ->%list_elem_of_singleton. done. }
  destruct o as [p parentNode up|parent child|i attrs|fuel i]; cbn [perform].
  - rewrite addNode_run. cbv zeta.
    destruct parentNode as [parent|]; simpl.
    + apply Hadd. by destruct (findNode get g p).
    + by destruct (findNode get g p).
  - by apply Hadd.
  - by rewrite setNodeAttrs_run.
  - by rewrite (shape_edges _ _ (shape_toggle fuel i g)).
Qed.

(** The edge collection never holds an edge twice: a collection without
    repetition stays so under any sequence of calls. *)
Theorem edges_never_repeat os g :
  NoDup (edges g) → NoDup (edges (performAll get os g)).
Proof.
  intros Hnd. induction os as [|o os IH] using rev_ind; [done|].
  unfold performAll in *. rewrite foldl_app. simpl.
  by apply perform_edges_NoDup.
Qed.

Lemma shape_payloadKeys g g' key :
  shape g = shape g' →
  (payloadKey get key <$> nodes g) = (payloadKey get key <$> nodes g').
Proof.
  intros H. apply (f_equal (λ g, payloadKey get key <$> nodes g)) in H.
  unfold shape in H. simpl in H.
  by rewrite <-!list_fmap_compose in H.
Qed.

Lemma perform_keyed o g :
  keepsPayload o → keyed get g → keyed get (perform get o g).
Proof.
  intros Hkeeps Hkeyed key Hkey.
  destruct (perform_grows o g) as (_ & _ & Hkeys). rewrite Hkeys in Hkey.
  specialize (Hkeyed key Hkey).
  destruct o as [p parentNode up|parent child|i attrs|fuel i]; cbn [perform].
  - assert (Hnodes : ∀ parent child g1,
              nodes (addEdge parent child g1).2 = nodes g1).
    { intros parent child g1. by rewrite addEdge_run. }
    rewrite addNode_run. cbv zeta.
    assert (Hgoal : NoDup (payloadKey get key <$>
              nodes match findNode get g p with
                    | Some _ => g
                    | None =>
                        mkGraphDb
                          (nodes g ++ [default
                             (mkNode (idGenerator g)
                                match parentNode with
                                | Some parent =>
                                    if up then level parent - 1
                                    else level parent + 1
                                | None => 0
                                end None None (Some p))
                             (findNode get g p)])
                          (edges g) (uniqueKeys g) (idGenerator g + 1)
                    end)).
    { destruct (findNode get g p) as [found|] eqn:Hfind; [done|]. simpl.
      rewrite fmap_app. apply NoDup_app. split; [done|].
      split; [|apply NoDup_singleton].
      intros v Hv ->%list_elem_of_singleton.
      apply list_elem_of_fmap in Hv as (m & Hm & Hin).
      by apply (proj1 (findNode_None get g p) Hfind key m). }
    destruct parentNode as [parent|]; simpl; [by rewrite Hnodes | done].
  - by rewrite addEdge_run.
  - rewrite setNodeAttrs_run. simpl. rewrite <-list_fmap_compose.
    rewrite (list_fmap_ext _ (payloadKey get key) (nodes g)); [done|].
    intros _ n _. simpl. case_decide; [|done].
    unfold payloadKey, spread. simpl in *. by rewrite Hkeeps.
  - by rewrite (shape_payloadKeys _ _ key (shape_toggle fuel i g)).
Qed.

(** One node per identity: when no two nodes have the same value under a
    unique key, this stays so under any sequence of calls that patch no
    payload, whatever payloads [addNode] is given. *)
Theorem identities_stay_unique os g :
  keyed get g → Forall keepsPayload os → keyed get (performAll get os g).
Proof.
  intros Hkeyed Hos. induction os as [|o os IH] using rev_ind; [done|].
  apply Forall_app in Hos as [Hos Ho].
  apply (proj1 (Forall_singleton _ _)) in Ho.
  unfold performAll in *. rewrite foldl_app. simpl.
  apply perform_keyed; [done | by apply IH].
Qed.

Lemma numbered_performAll keys os :
  Forall keepsId os → numbered (performAll get os (newGraphDb keys)).
Proof.
  intros Hos. induction os as [|o os IH] using rev_ind.
  - split; [by intros pos n ?|done].
  - apply Forall_app in Hos as [Hos Ho].
    apply (proj1 (Forall_singleton _ _)) in Ho.
    unfold performAll in *. rewrite foldl_app. simpl.
    apply numbered_perform; [done | by apply IH].
Qed.

(** A graph built from a fresh instance by calls that patch no id has
    distinct node ids, [nodesById] gives every node back for its id, and
    the generator holds an id that no node has. *)
Theorem built_ids_distinct keys os :
  Forall keepsId os →
  let g := performAll get os (newGraphDb keys) in
  NoDup (id <$> nodes g)
  ∧ (∀ n, n ∈ nodes g → nodesById g !! id n = Some n)
  ∧ idGenerator g ∉ id <$> nodes g.
Proof.
  intros Hos g. pose proof (numbered_performAll keys os Hos) as Hnum.
  fold g in Hnum. pose proof (numbered_NoDup g Hnum) as Hnd.
  split; [done|]. split; [intros n; by apply nodesById_NoDup|].
  apply numbered_ids in Hnum as [Hpos Hnext].
  intros (pos & Hj)%list_elem_of_lookup.
  pose proof (lookup_lt_Some _ _ _ Hj) as Hlt.
  apply Hpos in Hj. lia.
Qed.
End Sequences.

Lemma built_edges_never_repeat :
  let a := mkNode 1 0 None None (Some "A") in
  let os := [AddNode "A" None false; AddNode "B" (Some a) true;
             AddEdge a a; Toggle 3 1; AddNode "A" (Some a) false;
             AddEdge a a] in
  NoDup (edges (performAll urn os (newGraphDb ["urn"])))
  ∧ edges (performAll urn os (newGraphDb ["urn"])) = [mkEdge 1 2; mkEdge 1 1].
Proof.
  intros a os.
  assert (Hedges : NoDup (edges (newGraphDb (T := string) ["urn"])))
    by apply NoDup_nil_2.
  split; [exact (edges_never_repeat urn os _ Hedges) | by vm_compute].
Defined.

Lemma built_identities_stay_unique :
  let a := mkNode 1 0 None None (Some "A") in
  let os := [AddNode "A" None false; AddNode "B" (Some a) true;
             AddNode "A" (Some a) false; SetNodeAttrs 2 (selectedAttr true);
             AddNode "B" None false] in
  keyed urn (performAll urn os (newGraphDb ["urn"]))
  ∧ (payload <$> nodes (performAll urn os (newGraphDb ["urn"])))
    = [Some "A"; Some "B"].
Proof.
  intros a os.
  assert (Hkeyed : keyed urn (newGraphDb (T := string) ["urn"])).
  { intros key _. apply NoDup_nil_2. }
  assert (Hpayload : Forall keepsPayload os) by (repeat constructor).
  split; [exact (identities_stay_unique urn os _ Hkeyed Hpayload)|].
  by vm_compute.
Defined.

Lemma lineage_built_ids :
  let a := mkNode 1 0 None None (Some "A") in
  let os := [AddNode "A" None false; AddNode "B" (Some a) true;
             SetNodeAttrs 1 (selectedAttr true); AddNode "C" (Some a) false] in
  Forall keepsId os
  ∧ NoDup (id <$> nodes (performAll urn os (newGraphDb ["urn"])))
  ∧ idGenerator (performAll urn os (newGraphDb ["urn"]))
    ∉ id <$> nodes (performAll urn os (newGraphDb ["urn"])).
Proof.
  intros a os.
  assert (Hid : Forall keepsId os) by (repeat constructor).
  split; [exact Hid|].
  destruct (built_ids_distinct urn ["urn"] os Hid) as (H1 & _ & H3).
  by split.
Defined.

(** ** What [getHierarchyNodes] returns *)

Section Closure.
Context {T : Type}.
Implicit Types (g : GraphDb T) (node n m seed : INode T) (i stop : Z).
Implicit Types (up : bool) (entry : option (INode T)).
Implicit Types (l explored current : list (option (INode T))).

Lemma expandStep_Ok g up stop entry found :
  expandStep g up stop [] entry = Ok found →
  is_Some entry ∧ Forall (λ e, ∃ j, e = nodesById g !! j) found.
Proof.
  unfold expandStep. destruct entry as [n|]; [|done].
  case_decide; [|by intros [= <-]].
  destruct up.
  - rewrite parentsByNodeId_lookup. case_decide; [|done].
    intros [= <-]. split; [done|]. apply Forall_fmap, Forall_forall.
    intros e _. by exists (to e).
  - rewrite childrenByNodeId_lookup. case_decide; [|done].
    intros [= <-]. split; [done|]. apply Forall_fmap, Forall_forall.
    intros e _. by exists (from e).
Qed.

Lemma expandFrontier_Ok g up stop current newNodes :
  expandFrontier g up stop current = Ok newNodes →
  Forall is_Some current ∧ Forall (λ e, ∃ j, e = nodesById g !! j) newNodes.
Proof.
  revert newNodes. induction current as [|entry current IH]; intros newNodes.
  - intros [= <-]. done.
  - rewrite expandFrontier_cons.
    destruct (expandStep g up stop [] entry) as [found| |] eqn:Hstep;
      [|done|done].
    destruct (expandFrontier g up stop current) as [rest| |]; [|done|done].
    simpl. intros [= <-].
    apply expandStep_Ok in Hstep as [Hentry Hfound].
    destruct (IH rest eq_refl) as [Hcur Hrest].
    split; [by apply Forall_cons | by apply Forall_app].
Qed.

Lemma hierarchyLoop_Ok g up stop seed fuel (found : list (INode T)) current l :
  (∀ m, m ∈ found → nodesById g !! id m = Some m) →
  Forall (λ e, ∃ j, e = nodesById g !! j) current →
  hierarchyLoop g up stop fuel (Some seed :: (Some <$> found) ++ current)
                current = Ok l →
  ∃ rest, l = Some seed :: (Some <$> rest)
          ∧ ∀ m, m ∈ rest → nodesById g !! id m = Some m.
Proof.
  revert found current.
  induction fuel as [|fuel IH]; intros found current Hfound Hcur.
  - destruct current; [|done]. simpl. intros [= <-].
    exists found. by rewrite app_nil_r.
  - destruct current as [|entry current].
    { simpl. intros [= <-]. exists found. by rewrite app_nil_r. }
    simpl.
    destruct (expandFrontier g up stop (entry :: current))
      as [newNodes| |] eqn:Hnew; [|done|done].
    simpl. apply expandFrontier_Ok in Hnew as [Hsome Hnext].
    destruct (Forall_is_Some _ Hsome) as [cur Hcur'].
    rewrite Hcur' in *.
    replace (Some seed :: ((Some <$> found) ++ (Some <$> cur)) ++ newNodes)
      with (Some seed :: (Some <$> (found ++ cur)) ++ newNodes)
      by (by rewrite fmap_app).
    apply IH; [|done].
    intros m [Hm|Hm]%elem_of_app; [by apply Hfound|].
    apply (list_elem_of_fmap_2 Some) in Hm.
    rewrite Forall_forall in Hcur. destruct (Hcur _ Hm) as [j Hj].
    symmetry in Hj. by destruct (nodesById_Some _ _ _ Hj) as [_ <-].
Qed.

Lemma getHierarchyNodes_Ok_resolved g fuel node up stop l :
  getHierarchyNodes g fuel node up stop = Ok l →
  ∃ rest, l = Some node :: (Some <$> rest)
          ∧ ∀ m, m ∈ rest → nodesById g !! id m = Some m.
Proof.
  unfold getHierarchyNodes. intros Hloop.
  destruct fuel as [|fuel]; [done|]. simpl in Hloop.
  destruct (expandFrontier g up stop [Some node]) as [newNodes| |] eqn:Hnew;
    [|done|done].
  simpl in Hloop. apply expandFrontier_Ok in Hnew as [_ Hnext].
  apply (hierarchyLoop_Ok g up stop node fuel [] newNodes); [|done|done].
  by intros m ?%elem_of_nil.
Qed.

(** Whenever [getHierarchyNodes] returns, the array starts with the node
    it was given, has no [undefined] entry, and every further entry is a
    node of the graph, the one that [nodesById] holds for its id. *)
Theorem getHierarchyNodes_returns_graph_nodes g fuel node up stop l :
  getHierarchyNodes g fuel node up stop = Ok l →
  ∃ rest, l = Some node :: (Some <$> rest)
          ∧ ∀ m, m ∈ rest → m ∈ nodes g ∧ nodesById g !! id m = Some m.
Proof.
  intros (rest & -> & Hrest)%getHierarchyNodes_Ok_resolved.
  exists rest. split; [done|]. intros m Hm. split; [|by apply Hrest].
  by apply (nodesById_Some g (id m)), Hrest.
Qed.


Lemma expandFrontier_Forall g up stop (P : INode T → Prop) current newNodes :
  (∀ n found, P n → expandStep g up stop [] (Some n) = Ok found →
              Forall (λ e, ∀ m, e = Some m → P m) found) →
  Forall (λ e, ∀ m, e = Some m → P m) current →
  expandFrontier g up stop current = Ok newNodes →
  Forall (λ e, ∀ m, e = Some m → P m) newNodes.
Proof.
  intros Hstep. revert newNodes.
  induction current as [|entry current IH]; intros newNodes Hcur.
  - by intros [= <-].
  - rewrite expandFrontier_cons.
    destruct (expandStep g up stop [] entry) as [found| |] eqn:Hfound;
      [|done|done].
    destruct (expandFrontier g up stop current) as [rest| |]; [|done|done].
    simpl. intros [= <-]. apply Forall_cons in Hcur as [Hentry Hcur].
    apply Forall_app. split; [|by apply IH].
    destruct entry as [n|]; [|done]. apply (Hstep n); [by apply Hentry | done].
Qed.

(** What the loop adds to [exploredNodes] satisfies any property that the
    frontier satisfies and that expansion preserves. *)
Lemma hierarchyLoop_added g up stop (P : INode T → Prop) fuel explored current l :
  (∀ n found, P n → expandStep g up stop [] (Some n) = Ok found →
              Forall (λ e, ∀ m, e = Some m → P m) found) →
  Forall (λ e, ∀ m, e = Some m → P m) current →
  hierarchyLoop g up stop fuel explored current = Ok l →
  ∃ added, l = explored ++ added ∧ Forall (λ e, ∀ m, e = Some m → P m) added.
Proof.
  intros Hstep. revert explored current.
  induction fuel as [|fuel IH]; intros explored current Hcur.
  - destruct current; [|done]. simpl. intros [= <-].
    exists []. by rewrite app_nil_r.
  - destruct current as [|entry current].
    { simpl. intros [= <-]. exists []. by rewrite app_nil_r. }
    simpl.
    destruct (expandFrontier g up stop (entry :: current))
      as [newNodes| |] eqn:Hnew; [|done|done].
    simpl. intros Hloop.
    pose proof (expandFrontier_Forall g up stop P _ _ Hstep Hcur Hnew) as Hnext.
    destruct (IH _ _ Hnext Hloop) as (added & -> & Hadded).
    exists (newNodes ++ added). split; [by rewrite app_assoc|].
    by apply Forall_app.
Qed.

(** On a leveled graph whose levels span [lo..hi] the traversal from a
    node of the graph returns within [hi - lo + 1] passes, in either
    direction and for any stop level; it starts with the node, and every
    further node is a node of the graph that lies strictly beyond it in
    the direction of the traversal: at a lower level when [up], at a
    higher level otherwise. *)
Theorem getHierarchyNodes_leveled_returns g fuel node up stop lo hi :
  leveled g →
  (∀ n, n ∈ nodes g → lo ≤ level n ≤ hi) →
  nodesById g !! id node = Some node →
  hi - lo < Z.of_nat fuel →
  ∃ rest,
    getHierarchyNodes g fuel node up stop = Ok (Some node :: (Some <$> rest))
    ∧ ∀ m, m ∈ rest →
        m ∈ nodes g ∧ if up then level m < level node
                      else level node < level m.
Proof.
  intros Hlev Hrange Hnode Hfuel.
  destruct (getHierarchyNodes_leveled g fuel node up stop lo hi
              Hlev Hrange Hnode Hfuel) as [found Hfound].
  destruct (getHierarchyNodes_Ok_resolved _ _ _ _ _ _ Hfound)
    as (rest & Hrest & Hgraph).
  exists rest. rewrite Hfound, Hrest. split; [done|].
  set (P := λ m : INode T,
         nodesById g !! id m = Some m
         ∧ if up then level m < level node else level node < level m).
  assert (Hstep : ∀ n found, P n →
            expandStep g up stop [] (Some n) = Ok found →
            Forall (λ e, ∀ m, e = Some m → P m) found).
  { intros n found' [Hn Hbeyond] Hexp.
    destruct (expandStep_leveled g up stop n Hlev Hn) as (f & Hf & Hnext).
    rewrite Hf in Hexp. injection Hexp as <-.
    eapply Forall_impl; [exact Hnext|].
    intros e (m & -> & Hm & Hlt) m' [= <-]. split; [done|].
    destruct up; lia. }
  unfold getHierarchyNodes in Hfound. rewrite Hrest in Hfound.
  destruct fuel as [|fuel]; [done|]. simpl in Hfound.
  destruct (expandStep_leveled g up stop node Hlev Hnode) as (f & Hf & Hnext).
  rewrite expandFrontier_cons, Hf, expandFrontier_nil in Hfound.
  simpl in Hfound. rewrite app_nil_r in Hfound.
  assert (Hfirst : Forall (λ e, ∀ m, e = Some m → P m) f).
  { eapply Forall_impl; [exact Hnext|].
    intros e (m & -> & Hm & Hlt) m' [= <-]. by split. }
  destruct (hierarchyLoop_added g up stop P _ _ _ _ Hstep Hfirst Hfound)
    as (added & Hl & Hadded).
  injection Hl as Hl.
  assert (Hall : Forall (λ e, ∀ m, e = Some m → P m) (Some <$> rest)).
  { rewrite Hl. by apply Forall_app. }
  intros m Hm. split; [by apply (nodesById_Some g (id m)), Hgraph|].
  rewrite Forall_forall in Hall.
  by apply (Hall (Some m)); [apply list_elem_of_fmap_2|].
Qed.
End Closure.

Lemma diamond_closure_graph_nodes :
  let d := mkNode 4 2 None None (Some "D") in
  ∃ rest, getHierarchyNodes diamond 3 d true 0 = Ok (Some d :: (Some <$> rest))
          ∧ length rest = 4%nat
          ∧ ∀ m, m ∈ rest → m ∈ nodes diamond.
Proof.
  intros d.
  assert (Hrun : getHierarchyNodes diamond 3 d true 0
                 = Ok (Some <$> [d; mkNode 2 1 None None (Some "B1");
                                 mkNode 3 1 None None (Some "B2");
                                 mkNode 1 0 None None (Some "A");
                                 mkNode 1 0 None None (Some "A")]))
    by (by vm_compute).
  destruct (getHierarchyNodes_returns_graph_nodes diamond 3 d true 0 _ Hrun)
    as (rest & Hrest & Hgraph).
  exists rest. rewrite Hrun, Hrest. split; [done|].
  injection Hrest as Hrest. apply (f_equal length) in Hrest.
  rewrite length_fmap in Hrest. split; [done|].
  intros m Hm. by apply Hgraph.
Defined.


Lemma lineage_closure_returns :
  let b := mkNode 2 (-1) None None (Some "B") in
  ∃ rest,
    getHierarchyNodes lineage 3 b false 0 = Ok (Some b :: (Some <$> rest))
    ∧ ∀ m, m ∈ rest → m ∈ nodes lineage ∧ level b < level m.
Proof.
  intros b.
  assert (Hrange : ∀ n, n ∈ nodes lineage → -1 ≤ level n ≤ 1).
  { intros n Hn. apply list_elem_of_In in Hn. vm_compute in Hn.
    destruct Hn as [<-|[<-|[<-|[]]]]; simpl; lia. }
  assert (Hnode : nodesById lineage !! id b = Some b) by (by vm_compute).
  assert (Hfuel : 1 - -1 < Z.of_nat 3) by lia.
  exact (getHierarchyNodes_leveled_returns lineage 3 b false 0 (-1) 1
           lineage_leveled Hrange Hnode Hfuel).
Defined.

(** ** More on [toggle] *)

Section ToggleMore.
Context {T : Type}.
Implicit Types (g : GraphDb T) (node n m root : INode T) (i j lo hi : Z).
Implicit Types (b : bool) (ns : list (INode T)).

(** Whatever its outcome, [toggle] writes selection flags only: position
    by position the nodes keep their id, level, [loaded] flag and payload,
    and the edges, the unique keys and the id generator are untouched. *)
Theorem toggle_writes_flags_only fuel i g :
  length (nodes (toggle fuel i g).2) = length (nodes g)
  ∧ (∀ (pos : nat) n, nodes g !! pos = Some n →
       ∃ n', nodes (toggle fuel i g).2 !! pos = Some n'
             ∧ id n' = id n ∧ level n' = level n
             ∧ loaded n' = loaded n ∧ payload n' = payload n)
  ∧ edges (toggle fuel i g).2 = edges g
  ∧ uniqueKeys (toggle fuel i g).2 = uniqueKeys g
  ∧ idGenerator (toggle fuel i g).2 = idGenerator g.
Proof.
  pose proof (shape_toggle fuel i g) as Hshape.
  assert (Hnodes : (setSelected None <$> nodes (toggle fuel i g).2)
                   = (setSelected None <$> nodes g)).
  { by apply (f_equal nodes) in Hshape. }
  split; [|split; [|split; [|split]]].
  - apply (f_equal length) in Hnodes. by rewrite !length_fmap in Hnodes.
  - intros pos n Hn.
    apply (f_equal (λ l, l !! pos)) in Hnodes.
    rewrite !list_lookup_fmap, Hn in Hnodes.
    destruct (nodes (toggle fuel i g).2 !! pos) as [n'|]; [|done].
    exists n'. split; [done|]. simpl in Hnodes.
    injection Hnodes as ? ? ? ?. done.
  - by apply shape_edges.
  - by apply (f_equal uniqueKeys) in Hshape.
  - by apply (f_equal idGenerator) in Hshape.
Qed.

(** No partial mutation: a call of [toggle] that does not return, because
    it throws or because the traversal never ends, has written nothing. *)
Theorem toggle_fails_before_writing fuel i g :
  (toggle fuel i g).1 ≠ Ok tt → (toggle fuel i g).2 = g.
Proof.
  destruct (nodesById g !! i) as [node|] eqn:Hnode;
    [|by rewrite toggle_None].
  destruct (toggleSets g fuel node) as [[us ss]| |] eqn:Hsets;
    [|by rewrite (toggle_unfold _ _ _ _ Hnode), Hsets
     |by rewrite (toggle_unfold _ _ _ _ Hnode), Hsets].
  intros Hfail. exfalso. apply Hfail. clear Hfail.
  assert (Hsome : ∃ us' ss', us = Some <$> us' ∧ ss = Some <$> ss').
  { unfold toggleSets in Hsets. destruct (truthy (selected node)).
    - case_decide.
      + injection Hsets as <- <-. by exists (nodes g), [].
      + destruct (getHierarchyNodes g fuel node (getIsUpstream node) 0)
          as [l| |] eqn:Hl; [|done|done].
        injection Hsets as <- <-.
        apply getHierarchyNodes_Ok_resolved in Hl as (rest & -> & _).
        by exists (node :: rest), [].
    - destruct (getHierarchyNodes g fuel node (negb (getIsUpstream node)) 0)
        as [l| |] eqn:Hl; [|done|done].
      injection Hsets as <- <-.
      apply getHierarchyNodes_Ok_resolved in Hl as (rest & -> & _).
      by eexists _, (node :: rest). }
  destruct Hsome as (us' & ss' & -> & ->).
  by rewrite (toggle_returns fuel i g node us' ss' Hnode Hsets).
Qed.

Lemma selectIds_absorb j ids b ns :
  j ∈ ids → selectIds [j] b (selectIds ids b ns) = selectIds ids b ns.
Proof.
  intros Hj. unfold selectIds. rewrite <-list_fmap_compose.
  apply list_fmap_ext. intros _ n _. unfold compose.
  destruct (decide (id n = j)) as [<-|Hne].
  - rewrite (mark_in [id n]); [|rewrite id_mark; by left].
    by rewrite (mark_in ids).
  - apply mark_out. rewrite id_mark. by intros Heq%list_elem_of_singleton.
Qed.

(** Root clear.  [toggle] of a selected node at level 0 returns, without
    any traversal, and leaves every node of the graph with [selected]
    false. *)
Theorem toggle_selected_root_clears fuel g i root :
  nodesById g !! i = Some root →
  level root = 0 →
  truthy (selected root) = true →
  toggle fuel i g
  = (Ok tt, withNodes g (setSelected (Some false) <$> nodes g)).
Proof.
  intros Hroot Hlevel Hsel.
  assert (Hsets : toggleSets g fuel root
                  = Ok (Some <$> nodes g, Some <$> [])).
  { unfold toggleSets. rewrite Hsel. by rewrite decide_True. }
  rewrite (toggle_returns fuel i g root _ _ Hroot Hsets).
  rewrite Hsel. simpl. rewrite selectIds_nil. f_equal. f_equal.
  rewrite selectIds_absorb
    by (apply list_elem_of_fmap_2; by apply (nodesById_Some g i)).
  unfold selectIds. apply list_fmap_ext. intros pos n Hn.
  apply mark_in, list_elem_of_fmap_2. by eapply list_elem_of_lookup_2.
Qed.


End ToggleMore.




Lemma dangling_toggle_writes_nothing :
  (toggle 5 2 dangling).1 = Throw TypeError
  ∧ (toggle 5 2 dangling).2 = dangling.
Proof.
  assert (Hfail : (toggle 5 2 dangling).1 ≠ Ok tt) by (by vm_compute).
  split; [by vm_compute|].
  exact (toggle_fails_before_writing 5 2 dangling Hfail).
Defined.

Lemma lineageSelected_root_clears :
  (selected <$> nodes lineageSelected) = [Some true; None; Some true]
  ∧ ∃ g', toggle 0 1 lineageSelected = (Ok tt, g')
          ∧ (selected <$> nodes g') = [Some false; Some false; Some false].
Proof.
  split; [by vm_compute|].
  assert (Hroot : nodesById lineageSelected !! 1
                  = Some (mkNode 1 0 (Some true) None (Some "A")))
    by (by vm_compute).
  eexists. split.
  - exact (toggle_selected_root_clears 0 lineageSelected 1 _ Hroot
             eq_refl eq_refl).
  - by vm_compute.
Defined.



(** ** One-hop maps, patches and the minimum level *)

Section Neighbours.
Context {T : Type} (get : T → string → option string).
Implicit Types (g : GraphDb T) (node n m a b : INode T) (i j k : Z).
Implicit Types (o : operation T) (attrs : Attrs T).

(** The three maps indexed by id have the same keys, the ids of the
    nodes: [parentsByNodeId] and [childrenByNodeId] have an entry, possibly
    empty, exactly for the ids that [nodesById] holds. *)
Theorem id_maps_same_keys g k :
  (is_Some (nodesById g !! k) ↔ k ∈ id <$> nodes g)
  ∧ (is_Some (parentsByNodeId g !! k) ↔ k ∈ id <$> nodes g)
  ∧ (is_Some (childrenByNodeId g !! k) ↔ k ∈ id <$> nodes g).
Proof.
  split; [apply keyBy_lookup_is_Some|]. split.
  - rewrite parentsByNodeId_lookup. case_decide; [by split|].
    split; [by intros [? ?] | done].
  - rewrite childrenByNodeId_lookup. case_decide; [by split|].
    split; [by intros [? ?] | done].
Qed.


Lemma spread_spread n (a b : Attrs T) :
  spread (spread n a) b = spread n (spreadAttrs a b).
Proof.
  unfold spread, spreadAttrs. simpl.
  by destruct (a_id b), (a_level b), (a_selected b), (a_loaded b),
    (a_payload b).
Qed.

(** Patches compose.  When the first patch has no [id] key, two
    [setNodeAttrs] calls on the same id are one call with the second patch
    spread over the first, and calls on two different ids, both without
    [id] key, give the same instance in either order. *)
Theorem setNodeAttrs_compose g i j (a b : Attrs T) :
  a_id a = None →
  bind (setNodeAttrs i a) (λ _, setNodeAttrs i b) g
  = setNodeAttrs i (spreadAttrs a b) g
  ∧ (a_id b = None → i ≠ j →
     bind (setNodeAttrs i a) (λ _, setNodeAttrs j b) g
     = bind (setNodeAttrs j b) (λ _, setNodeAttrs i a) g).
Proof.
  intros Ha.
  assert (Hid : ∀ n c, a_id c = None → id (spread n c) = id n).
  { intros n c Hc. unfold spread. simpl. by rewrite Hc. }
  split.
  - unfold bind. rewrite !setNodeAttrs_run. simpl. f_equal. f_equal.
    rewrite <-list_fmap_compose. apply list_fmap_ext. intros _ n _. simpl.
    destruct (decide (id n = i)) as [Hn|Hn].
    + rewrite decide_True by by rewrite Hid. apply spread_spread.
    + by rewrite decide_False.
  - intros Hb Hij. unfold bind. rewrite !setNodeAttrs_run. simpl.
    f_equal. f_equal. rewrite <-!list_fmap_compose.
    apply list_fmap_ext. intros _ n _. simpl.
    destruct (decide (id n = i)) as [Hi|Hi];
      destruct (decide (id n = j)) as [Hj|Hj];
      rewrite ?Hid by done; repeat case_decide; congruence.
Qed.

(** Write then read.  After [setNodeAttrs(i, attrs)] with a patch without
    [id] key, [nodesById] holds under [i] the node it held with the patch
    spread over it, and under any other id the node it held. *)
Theorem nodesById_after_setNodeAttrs g i j attrs :
  a_id attrs = None →
  nodesById (setNodeAttrs i attrs g).2 !! j
  = if decide (j = i) then (λ n, spread n attrs) <$> nodesById g !! i
    else nodesById g !! j.
Proof.
  intros Hattrs. rewrite setNodeAttrs_run. unfold nodesById. simpl.
  rewrite keyBy_fmap.
  - destruct (keyBy id (nodes g) !! j) as [n|] eqn:Hn.
    + apply keyBy_lookup_Some in Hn as Hn'. destruct Hn' as [_ Hid]. simpl.
      destruct (decide (j = i)) as [->|Hne].
      * by rewrite decide_True, Hn.
      * rewrite decide_False by congruence. done.
    + simpl. case_decide; [|done]. subst. by rewrite Hn.
  - intros n. case_decide; [|done]. unfold spread. simpl. by rewrite Hattrs.
Qed.

Lemma minLevel_snoc ns es ks next (n : INode T) :
  minLevel (mkGraphDb (ns ++ [n]) es ks next)
  = Z.min (minLevel (mkGraphDb ns es ks next)) (level n).
Proof.
  unfold minLevel. simpl. rewrite foldl_app. simpl. case_decide; lia.
Qed.

Lemma minLevel_levels g g' :
  (level <$> nodes g) = (level <$> nodes g') → minLevel g = minLevel g'.
Proof.
  unfold minLevel. generalize 0. revert g'.
  generalize (nodes g). intros ns g'. generalize (nodes g'). clear.
  induction ns as [|n ns IH]; intros [|n' ns'] z; try done.
  rewrite !fmap_cons. intros [= Hn Hns]. simpl. rewrite Hn. by apply IH.
Qed.

(** The minimum level never rises: under a call that patches no level,
    [minLevel] stays the same or, when [addNode] creates a node below it,
    goes down to the level of that node. *)
Theorem minLevel_never_rises o g :
  keepsLevel o →
  minLevel (perform get o g) ≤ minLevel g
  ∧ (minLevel (perform get o g) = minLevel g
     ∨ ∃ n, n ∈ nodes (perform get o g)
            ∧ level n = minLevel (perform get o g)).
Proof.
  intros Hkeeps.
  assert (Hsame : (level <$> nodes (perform get o g)) = (level <$> nodes g)
                  ∨ ∃ n, nodes (perform get o g) = nodes g ++ [n]).
  { destruct o as [p parentNode up|parent child|i attrs|fuel i]; cbn [perform].
    - rewrite addNode_run. cbv zeta.
      assert (Hnodes : ∀ parent child g1,
                nodes (addEdge parent child g1).2 = nodes g1).
      { intros parent child g1. by rewrite addEdge_run. }
      destruct (findNode get g p) as [found|].
      + left. destruct parentNode; cbv beta iota; cbn [fst snd];
          by rewrite ?Hnodes.
      + right. destruct parentNode; cbv beta iota; cbn [fst snd];
          rewrite ?Hnodes; simpl; by eexists.
    - left. by rewrite addEdge_run.
    - left. rewrite setNodeAttrs_run. simpl. rewrite <-list_fmap_compose.
      apply list_fmap_ext. intros _ n _. simpl. case_decide; [|done].
      unfold spread. simpl in *. by rewrite Hkeeps.
    - left. symmetry. apply shape_levels. symmetry. apply shape_toggle. }
  destruct Hsame as [Hlevels | [n Hn]].
  - rewrite (minLevel_levels _ _ Hlevels). split; [lia | by left].
  - assert (Hmin : minLevel (perform get o g) = Z.min (minLevel g) (level n)).
    { destruct (perform get o g) as [ns es ks next]. simpl in Hn. subst ns.
      rewrite minLevel_snoc. reflexivity. }
    split; [lia|].
    destruct (Z.min_spec (minLevel g) (level n)) as [[_ Heq]|[_ Heq]].
    + left. lia.
    + right. exists n. split; [rewrite Hn; set_solver | lia].
Qed.
End Neighbours.


Lemma lineage_patches_compose :
  let a := selectedAttr (T := string) true in
  let b := mkAttrs (T := string) None None None (Some (Some true)) None in
  bind (setNodeAttrs 1 a) (λ _, setNodeAttrs 1 b) lineage
  = setNodeAttrs 1 (mkAttrs None None (Some (Some true)) (Some (Some true)) None)
      lineage.
Proof.
  intros a b.
  exact (proj1 (setNodeAttrs_compose lineage 1 2 a b eq_refl)).
Defined.

Lemma lineage_patch_then_lookup :
  nodesById (setNodeAttrs 3 (selectedAttr true) lineage).2 !! 3
  = Some (mkNode 3 1 (Some true) None (Some "C")).
Proof.
  rewrite (nodesById_after_setNodeAttrs lineage 3 3 (selectedAttr true) eq_refl).
  by vm_compute.
Defined.

Lemma lineage_minLevel_goes_down :
  let b := mkNode 2 (-1) None None (Some "B") in
  minLevel (perform urn (AddNode "E" (Some b) true) lineage) ≤ minLevel lineage
  ∧ minLevel (perform urn (AddNode "E" (Some b) true) lineage) = -2.
Proof.
  intros b. split; [|by vm_compute].
  exact (proj1 (minLevel_never_rises urn (AddNode "E" (Some b) true) lineage I)).
Defined.
